(** * Secret Santa draw (santa.js): a shallow embedding and its properties

    The script loads a static participant list, draws a random perfect
    matching by rejection sampling (shuffle, check, retry), and mails every
    giver the name of the receiver.  The embedding below follows santa.js
    function by function.  Effects are explicit: calls to [Math.random],
    console output, and calls to the mail transport are threaded through a
    small monad over a [world]. *)

From stdpp Require Import base list strings pretty.
From Stdlib Require Import Arith Lia Ascii.

Open Scope string_scope.

(** ** Data model (shape of the entries of config.js) *)

Record participant := Participant {
  uid : nat;
  name : string;
  email : string;
  group : option string   (* [None]: the property is absent (undefined) *)
}.

Record assignment := Assignment {
  giver : participant;
  receiver : participant
}.

(** JavaScript truthiness of a [group] value: undefined and the empty string
    are falsy, every other string is truthy. *)
Definition truthy (g : option string) : bool :=
  match g with
  | None => false
  | Some s => negb (String.eqb s "")
  end.

(** [g1 === g2] on group values. *)
Definition group_strict_eq (g1 g2 : option string) : bool :=
  match g1, g2 with
  | None, None => true
  | Some s1, Some s2 => String.eqb s1 s2
  | _, _ => false
  end.

(** Template-literal rendering of a possibly undefined string. *)
Definition render (o : option string) : string :=
  match o with
  | Some s => s
  | None => "undefined"
  end.

(** ** Random numbers

    [Math.random()] returns a number in the half-open interval [0,1).  A
    draw is represented by the fraction [numer / (numer + slack + 1)], which
    lies in that interval by construction. *)
Record unit_interval := Draw { numer : nat; slack : nat }.

(** [Math.floor(r * k)] for a draw [r] and a natural number [k]. *)
Definition floor_scaled (r : unit_interval) (k : nat) : nat :=
  (numer r * k) / (numer r + slack r + 1).

(** The draw [j / (i + 1)], for [j <= i]. *)
Definition draw_for (i j : nat) : unit_interval := Draw j (i - j).

(** ** Effects *)

Record mailOptions := MailOptions {
  from : string;
  to : string;
  subject : string;
  text : string;
  html : string
}.

(** A value that is thrown, or that a promise rejects with, as far as the
    script looks at it: [undefined], [null], or any other value, of which
    the script only reads the property [message] ([None] when the value has
    no such property, so that reading it gives [undefined]). *)
Inductive thrown :=
  | Undefined
  | Null
  | Thrown (message : option string).


(** The TypeError of reading property [prop] of [undefined] or [null]. *)
Definition type_error (value prop : string) : thrown :=
  Thrown (Some ("Cannot read properties of " +:+ value +:+ " (reading '"
                +:+ prop +:+ "')")).

(** [ConsoleError line] is [console.error] called with a string,
    [ConsoleErrorValue e] is [console.error] called with a caught value. *)
Inductive event :=
  | ConsoleLog (line : string)
  | ConsoleError (line : string)
  | ConsoleErrorValue (e : thrown)
  | CreateTransport (user pass : option string)
  | SendMail (m : mailOptions).

(** [rand_calls]: how many times [Math.random] has been called;
    [effects]: the observable events so far, oldest first. *)
Record world := World {
  rand_calls : nat;
  effects : list event
}.

Definition emit (es : list event) (w : world) : world :=
  World (rand_calls w) (effects w ++ es).

(** The mails handed to [transporter.sendMail] in a run, in call order. *)
Definition sent (es : list event) : list mailOptions :=
  omap (fun e => match e with SendMail m => Some m | _ => None end) es.

(** How a computation ends: it returns a value, throws a value (for an
    [async] function: its promise rejects with it), ends the process, or is
    still looping when the fuel given to the [while] loop is used up. *)
Inductive outcome (A : Type) :=
  | Returns (a : A) (w : world)
  | Throws (error : thrown) (w : world)
  | Exits (code : nat) (w : world)
  | Loops.
Arguments Returns {A} a w.
Arguments Throws {A} error w.
Arguments Exits {A} code w.
Arguments Loops {A}.

Definition M (A : Type) : Type := world -> outcome A.

Definition ret {A} (a : A) : M A := fun w => Returns a w.

Definition bind {A B} (m : M A) (k : A -> M B) : M B :=
  fun w =>
    match m w with
    | Returns a w' => k a w'
    | Throws e w' => Throws e w'
    | Exits c w' => Exits c w'
    | Loops => Loops
    end.

Definition throw {A} (error : thrown) : M A := fun w => Throws error w.

(** [try { body } catch (error) { handler(error) }] *)
Definition try_catch {A} (body : M A) (handler : thrown -> M A) : M A :=
  fun w =>
    match body w with
    | Throws e w' => handler e w'
    | o => o
    end.

Definition process_exit {A} (code : nat) : M A := fun w => Exits code w.

Definition console_log (line : string) : M unit :=
  fun w => Returns tt (emit [ConsoleLog line] w).

Definition console_error (line : string) : M unit :=
  fun w => Returns tt (emit [ConsoleError line] w).

Definition console_error_value (e : thrown) : M unit :=
  fun w => Returns tt (emit [ConsoleErrorValue e] w).

Definition when (b : bool) (m : M unit) : M unit := if b then m else ret tt.

Declare Scope js_scope.
Delimit Scope js_scope with js.
Notation "x <- m ;; k" := (bind m (fun x => k))
  (at level 100, m at next level, right associativity) : js_scope.
Notation "m ;;; k" := (bind m (fun _ => k))
  (at level 100, right associativity) : js_scope.
Open Scope js_scope.

(** ** Arrays *)

Section Arrays.
Context {A : Type}.

(** [[array[i], array[j]] = [array[j], array[i]]]: both reads happen
    first, then [array[i]] and [array[j]] are written in that order.  In
    [shuffle] both indices are always in range ([0 <= j <= i < length]);
    outside that range the array is left as it is here. *)
Definition swap (array : list A) (i j : nat) : list A :=
  match array !! j, array !! i with
  | Some aj, Some ai => <[j := ai]> (<[i := aj]> array)
  | _, _ => array
  end.

(** The loop of [shuffle] with the index draws given explicitly:
    [js] holds the value of [j] for [i], [i-1], ..., [1]. *)
Fixpoint shuffle_with (i : nat) (js : list nat) (array : list A) : list A :=
  match i, js with
  | S i', j :: js' => shuffle_with i' js' (swap array i j)
  | _, _ => array
  end.
End Arrays.

(** All vectors of index draws [[j_i; ...; j_1]] with [0 <= j_k <= k]. *)
Fixpoint index_draws (i : nat) : list (list nat) :=
  match i with
  | 0 => [[]]
  | S i' => j ← seq 0 (S i); (fun js => j :: js) <$> index_draws i'
  end.

(** ** The script *)

Definition nl : string := String "010"%char "".
Definition dq : string := String "034"%char "".

(** [array.includes(x)] on an array of strings. *)
Definition includes (array : list string) (x : string) : bool :=
  existsb (String.eqb x) array.

(** The usage text printed for [--help] (lines 16-33). *)
Definition help_text : string :=
"
  🎅 Secret Santa Script 🎅

  This script runs a Secret Santa draw and emails the results to participants.

  Usage:
    node santa.js [options]

  Options:
    -d, --dry-run       Run the script without sending any emails.
                        (Prints assignments to the console)
    
    -g, --group-check   Enable the group exclusion rule.
                        (Prevents people in the same 'group' from
                        being assigned to each other)
    
    -h, --help          Show this help menu.
  ".

Section Santa.

(** [process.argv.slice(2)] *)
Variable args : list string.
(** The list exported by config.js. *)
Variable participants : list participant.
(** [process.env.GMAIL_USER] and [process.env.GMAIL_APP_PASS] *)
Variable YOUR_EMAIL YOUR_APP_PASSWORD : option string.
(** The value returned by the k-th call of [Math.random] (k = 0, 1, ...). *)
Variable random_source : nat -> unit_interval.
(** What the k-th call of [transporter.sendMail] does with the mail it is
    given: [None] when the promise resolves, [Some e] when it rejects with
    the value [e]. *)
Variable sendMail_result : nat -> mailOptions -> option thrown.
(** The lines that [require('dotenv').config()] writes to the console; which
    ones, if any, depends on the installed version of dotenv. *)
Variable dotenv_lines : list string.

Definition DRY_RUN : bool := includes args "--dry-run" || includes args "-d".
Definition groups_on : bool := includes args "--groups" || includes args "-g".

Definition Math_random : M unit_interval :=
  fun w => Returns (random_source (rand_calls w))
                   (World (S (rand_calls w)) (effects w)).

Definition createTransport : M unit :=
  fun w => Returns tt (emit [CreateTransport YOUR_EMAIL YOUR_APP_PASSWORD] w).

Definition sendMail (m : mailOptions) : M unit :=
  fun w =>
    let w' := emit [SendMail m] w in
    match sendMail_result (length (sent (effects w))) m with
    | None => Returns tt w'
    | Some e => Throws e w'
    end.

(** Line 3. *)
Definition dotenv_config : M unit :=
  fun w => Returns tt (emit (ConsoleLog <$> dotenv_lines) w).

(** *** shuffle (lines 41-46) *)

(** The [for] loop, entered with loop variable [i]. *)
Fixpoint shuffle_from {A} (i : nat) (array : list A) : M (list A) :=
  match i with
  | 0 => ret array
  | S i' =>
      r <- Math_random ;;
      let j := floor_scaled r (i + 1) in
      shuffle_from i' (swap array i j)
  end.

Definition shuffle {A} (array : list A) : M (list A) :=
  shuffle_from (length array - 1) array.

(** *** createAssignments (lines 52-102) *)

(** Rule 1 (line 75). *)
Definition self_match (giver receiver : participant) : bool :=
  Nat.eqb (uid giver) (uid receiver).

(** Rule 2 (line 83). *)
Definition group_conflict (giver receiver : participant) : bool :=
  truthy (group giver) && truthy (group receiver)
  && group_strict_eq (group giver) (group receiver).

(** The [for] loop of lines 68-89, entered with loop variable [i] and with
    [rest] the givers from index [i] on.  Its value is the value of
    [hasInvalidAssignment] when the loop is left.  Reading a property of
    [receivers[i]] when that is undefined throws a TypeError: at
    [receiver.name] in dry-run mode (line 72), at [receiver.uid] otherwise
    (line 75). *)
Fixpoint check_from (i : nat) (rest receivers : list participant) : M bool :=
  match rest with
  | [] => ret false
  | giver :: rest' =>
      match receivers !! i with
      | None =>
          throw (type_error "undefined" (if DRY_RUN then "name" else "uid"))
      | Some receiver =>
          when DRY_RUN
            (console_log ("Checking assignment: " +:+ name giver +:+ " -> "
                          +:+ name receiver)) ;;;
          if self_match giver receiver then
            console_log ("...Self-assignment found for " +:+ name giver
                         +:+ ". Re-shuffling entire list.") ;;;
            ret true
          else if groups_on && group_conflict giver receiver then
            console_log ("...Group conflict: " +:+ name giver +:+ " ("
                         +:+ render (group giver) +:+ ") can't get "
                         +:+ name receiver +:+ " ("
                         +:+ render (group receiver) +:+ "). Re-shuffling.") ;;;
            ret true
          else check_from (S i) rest' receivers
      end
  end.

(** The [while] loop of lines 59-90.  [attempts] is the counter on entry;
    the loop is entered with [hasInvalidAssignment] true.  One unit of
    [fuel] is spent per iteration, and [Loops] is the answer when none is
    left: the source has no bound on the number of iterations. *)
Fixpoint retry (fuel attempts : nat) (givers : list participant)
  : M (list participant * nat) :=
  match fuel with
  | 0 => fun _ => Loops
  | S fuel' =>
      let attempts := S attempts in
      console_log ("Attempt " +:+ pretty attempts
                   +:+ ": Shuffling receivers...") ;;;
      receivers <- shuffle participants ;;
      hasInvalidAssignment <- check_from 0 givers receivers ;;
      if hasInvalidAssignment : bool then retry fuel' attempts givers
      else ret (receivers, attempts)
  end.

(** Lines 92-98: the pairs [(givers[i], receivers[i])] for every index of
    [givers]; [receivers] has the same length when the loop above is left. *)
Definition pair_up (givers receivers : list participant) : list assignment :=
  zip_with Assignment givers receivers.

Definition createAssignments (fuel : nat) : M (list assignment) :=
  console_log "Creating assignments..." ;;;
  let givers := participants in
  found <- retry fuel 0 givers ;;
  let (receivers, attempts) := found : list participant * nat in
  let assignments := pair_up givers receivers in
  console_log ("Assignments created successfully after " +:+ pretty attempts
               +:+ " attempt(s).") ;;;
  ret assignments.

(** *** sendEmails (lines 108-153) *)

Definition mail_for (a : assignment) : mailOptions :=
  let giver := giver a in
  let receiver := receiver a in
  {| from := dq +:+ "Secret Santa Bot" +:+ dq +:+ " <" +:+ render YOUR_EMAIL
             +:+ ">";
     to := email giver;
     subject := "Your Secret Santa Assignment is Here! 🎅";
     text := "Hi " +:+ name giver +:+ "!" +:+ nl +:+ nl
             +:+ "You are the Secret Santa for..." +:+ nl +:+ nl
             +:+ "** " +:+ name receiver +:+ " **" +:+ nl +:+ nl
             +:+ "Shhhh, it's a secret!" +:+ nl +:+ nl +:+ "Happy holidays!";
     html := "
        <div style=" +:+ dq +:+ "font-family: Arial, sans-serif; line-height: 1.6;" +:+ dq +:+ ">
          <h2>Hi " +:+ name giver +:+ "!</h2>
          <p>Your Secret Santa assignment is here! 🎄</p>
          <p>You are the Secret Santa for...</p>
          <div style=" +:+ dq +:+ "font-size: 24px; font-weight: bold; margin: 20px 0; padding: 10px; background-color: #f4f4f4; border-radius: 5px;" +:+ dq +:+ ">
            " +:+ name receiver +:+ "
          </div>
          <p>Shhhh, it's a secret!</p>
          <p>Happy holidays,<br>The Secret Santa Bot 🤖</p>
          <p>-P.S. This probably isn't a scam but if you want to be sure respond to this email with your SSN and/or bank PIN.  Please and thank you!</p>
        </div>
      " |}.

(** The lines printed at lines 143, 147 and 149. *)
Definition dry_run_line (a : assignment) : string :=
  "(DRY RUN) Would email " +:+ name (giver a) +:+ " (" +:+ email (giver a)
  +:+ "): " +:+ dq +:+ "You got " +:+ name (receiver a) +:+ dq.

Definition success_line (a : assignment) : string :=
  "✅ Email sent successfully to " +:+ name (giver a).

Definition failure_line (a : assignment) (message : string) : string :=
  "❌ Error sending email to " +:+ name (giver a) +:+ ": " +:+ message.

(** The [catch] block of lines 148-150.  Reading [error.message] throws a
    TypeError when the caught value is [undefined] or [null]; for any other
    value the message, or "undefined" when there is none, goes into the line
    printed. *)
Definition report_failure (a : assignment) (error : thrown) : M unit :=
  match error with
  | Undefined => throw (type_error "undefined" "message")
  | Null => throw (type_error "null" "message")
  | Thrown message => console_error (failure_line a (render message))
  end.

(** The body of the [for ... of] loop (lines 120-151). *)
Definition notify (a : assignment) : M unit :=
  let mailOptions := mail_for a in
  if DRY_RUN then console_log (dry_run_line a)
  else
    try_catch
      (sendMail mailOptions ;;;
       console_log (success_line a))
      (report_failure a).

Fixpoint for_of {A} (items : list A) (body : A -> M unit) : M unit :=
  match items with
  | [] => ret tt
  | a :: items' => body a ;;; for_of items' body
  end.

Definition sending_header : string := nl +:+ "--- Sending Emails ---".

Definition sendEmails (assignments : list assignment) : M unit :=
  createTransport ;;;
  console_log sending_header ;;;
  for_of assignments notify.

(** *** main (lines 158-175) and the top level *)

Definition too_few_participants : string :=
  "Error: You need at least 2 participants for a Secret Santa.".

Definition main (fuel : nat) : M unit :=
  if Nat.ltb (length participants) 2 then
    console_error too_few_participants
  else
    when DRY_RUN
      (console_log "******************************" ;;;
       console_log "* RUNNING IN DRY MODE    *" ;;;
       console_log "* No emails will be sent.   *" ;;;
       console_log ("******************************" +:+ nl)) ;;;
    assignments <- createAssignments fuel ;;
    sendEmails assignments ;;;
    console_log (nl +:+ "All done!").

(** The top level.  Line 3 loads the environment; lines 4-8 load nodemailer
    and config.js and read the credentials, which gives the parameters
    above.  Lines 15-35: the help switch ends the process before [main] is
    called.  Line 178: a value that [main] rejects with is handed to
    [console.error]. *)
Definition script (fuel : nat) : M unit :=
  dotenv_config ;;;
  if includes args "--help" || includes args "-h" then
    console_log help_text ;;;
    process_exit 0
  else try_catch (main fuel) console_error_value.

End Santa.

(** ** Derived notions used in the statements *)

(** The index draws [j] that [shuffle_from i] makes when it is entered after
    [c] earlier calls of [Math.random]: the values for [i], [i-1], ..., [1]. *)
Fixpoint drawn (random_source : nat -> unit_interval) (c i : nat) : list nat :=
  match i with
  | 0 => []
  | S i' => floor_scaled (random_source c) (i + 1) :: drawn random_source (S c) i'
  end.

(** A pair that the checks of lines 75 and 81-88 reject. *)
Definition violation (groups : bool) (giver receiver : participant) : bool :=
  self_match giver receiver || (groups && group_conflict giver receiver).

(** No index holds a rejected pair. *)
Definition zero_violations (groups : bool) (givers receivers : list participant)
  : bool :=
  forallb (fun a => negb (violation groups (giver a) (receiver a)))
          (pair_up givers receivers).

(** Erasing console and transport events from an outcome: what remains is
    the value and the number of random draws made. *)
Definition hush (w : world) : world := World (rand_calls w) [].

Definition quiet {A} (o : outcome A) : outcome A :=
  match o with
  | Returns a w => Returns a (hush w)
  | Throws e w => Throws e (hush w)
  | Exits c w => Exits c (hush w)
  | Loops => Loops
  end.

(** What the loop of [sendEmails] does in live mode from the k-th call of
    [sendMail] on: one call per assignment, each followed by the line that
    reports how it went, up to and including the first call that rejects
    with [undefined] or [null], if there is one. *)
Fixpoint delivery (YOUR_EMAIL : option string)
    (sendMail_result : nat -> mailOptions -> option thrown)
    (k : nat) (assignments : list assignment) : list event :=
  match assignments with
  | [] => []
  | a :: rest =>
      SendMail (mail_for YOUR_EMAIL a)
      :: match sendMail_result k (mail_for YOUR_EMAIL a) with
         | None =>
             ConsoleLog (success_line a)
             :: delivery YOUR_EMAIL sendMail_result (S k) rest
         | Some (Thrown message) =>
             ConsoleError (failure_line a (render message))
             :: delivery YOUR_EMAIL sendMail_result (S k) rest
         | Some _ => []
         end
  end.

(** The value with which that loop is left early, if it is: the TypeError
    of the catch block at the first call that rejects with [undefined] or
    [null]. *)
Fixpoint delivery_error (YOUR_EMAIL : option string)
    (sendMail_result : nat -> mailOptions -> option thrown)
    (k : nat) (assignments : list assignment) : option thrown :=
  match assignments with
  | [] => None
  | a :: rest =>
      match sendMail_result k (mail_for YOUR_EMAIL a) with
      | Some Undefined => Some (type_error "undefined" "message")
      | Some Null => Some (type_error "null" "message")
      | _ => delivery_error YOUR_EMAIL sendMail_result (S k) rest
      end
  end.

(** The world in which an outcome leaves the process, if it does. *)
Definition final_world {A} (o : outcome A) : option world :=
  match o with
  | Returns _ w | Throws _ w | Exits _ w => Some w
  | Loops => None
  end.

Section Reference.
Variable args : list string.
Variable participants : list participant.
Variable random_source : nat -> unit_interval.

(** The matcher as the specification words it (section 4.1): fix the giver
    order as the input order; repeatedly draw a random permutation of the
    same participant list to serve as receivers; abandon the whole candidate
    when any index holds a self-match or, with group exclusion, a same-group
    pair; accept the first candidate with zero violations. *)
Fixpoint rejection_sampling (fuel : nat) : M (list assignment) :=
  match fuel with
  | 0 => fun _ => Loops
  | S fuel' =>
      candidate <- shuffle random_source participants ;;
      if zero_violations (groups_on args) participants candidate
      then ret (pair_up participants candidate)
      else rejection_sampling fuel'
  end.

(** The candidate drawn by an attempt that starts after [c] random draws. *)
Definition candidate (c : nat) : list participant :=
  let i := length participants - 1 in
  shuffle_with i (drawn random_source c i) participants.

(** The index-draw vectors of the first [k] attempts, starting after [c]
    random draws. *)
Fixpoint attempts_drawn (c k : nat) : list (list nat) :=
  match k with
  | 0 => []
  | S k' =>
      let i := length participants - 1 in
      drawn random_source c i :: attempts_drawn (c + i) k'
  end.

(** The attempts of the retry loop, without the console: the first accepted
    candidate among the next [fuel] attempts made after [c] random draws, and
    the number of random draws made when it is found. *)
Fixpoint first_accepted (c fuel : nat) : option (list participant * nat) :=
  match fuel with
  | 0 => None
  | S fuel' =>
      let receivers := candidate c in
      if zero_violations (groups_on args) participants receivers
      then Some (receivers, c + (length participants - 1))
      else first_accepted (c + (length participants - 1)) fuel'
  end.

(** An index-draw vector whose candidate is rejected. *)
Definition rejected (js : list nat) : bool :=
  negb (zero_violations (groups_on args) participants
          (shuffle_with (length participants - 1) js participants)).
End Reference.

(** All sequences of [k] index-draw vectors for arrays shuffled from index
    [i]: the possible draws of [k] attempts. *)
Fixpoint draw_sequences (i k : nat) : list (list (list nat)) :=
  match k with
  | 0 => [[]]
  | S k' => js ← index_draws i; (fun jss => js :: jss) <$> draw_sequences i k'
  end.

(** What [main] prints before the matcher starts (lines 164-169). *)
Definition banner (dry : bool) : list event :=
  if dry then
    [ConsoleLog "******************************";
     ConsoleLog "* RUNNING IN DRY MODE    *";
     ConsoleLog "* No emails will be sent.   *";
     ConsoleLog ("******************************" +:+ nl)]
  else [].

(** What the loop of [sendEmails] does for a list of assignments when [k]
    mails have been handed to the transport before. *)
Definition notifications (args : list string) (YOUR_EMAIL : option string)
    (sendMail_result : nat -> mailOptions -> option thrown)
    (k : nat) (assignments : list assignment) : list event :=
  if DRY_RUN args then (fun a => ConsoleLog (dry_run_line a)) <$> assignments
  else delivery YOUR_EMAIL sendMail_result k assignments.

(** The value with which that loop is left early, if it is. *)
Definition notification_error (args : list string) (YOUR_EMAIL : option string)
    (sendMail_result : nat -> mailOptions -> option thrown)
    (k : nat) (assignments : list assignment) : option thrown :=
  if DRY_RUN args then None
  else delivery_error YOUR_EMAIL sendMail_result k assignments.

(** ** Sample data for concrete runs *)

Definition alice : participant := Participant 1 "Alice" "alice@example.com" None.
Definition bob : participant := Participant 2 "Bob" "bob@example.com" None.
Definition carol : participant := Participant 3 "Carol" "carol@example.com" None.

(** A random source that returns the same number at every call. *)
Definition always (r : unit_interval) : nat -> unit_interval := fun _ => r.

Definition start : world := World 0 [].

(** * Properties *)

Close Scope string_scope.

(** ** Arrays and the shuffle *)

Section ArrayFacts.
Context {A : Type}.
Implicit Types (array l t : list A) (i j k : nat).

Lemma swap_length l i j : length (swap l i j) = length l.
Proof.
  unfold swap. destruct (l !! j), (l !! i); try done.
  by rewrite !length_insert.
Qed.

Lemma swap_Permutation l i j : swap l i j ≡ₚ l.
Proof.
  unfold swap. destruct (l !! j) eqn:Hj, (l !! i) eqn:Hi; try done.
  by apply Permutation_insert_swap.
Qed.

Lemma swap_lookup_upper l i j :
  i < length l → j < length l → swap l i j !! i = l !! j.
Proof.
  intros Hi Hj. unfold swap.
  destruct (lookup_lt_is_Some_2 l j Hj) as [aj Haj].
  destruct (lookup_lt_is_Some_2 l i Hi) as [ai Hai].
  rewrite Haj, Hai. destruct (decide (i = j)) as [->|Hne].
  - rewrite list_lookup_insert_eq by (by rewrite length_insert). congruence.
  - rewrite list_lookup_insert_ne by done.
    by rewrite list_lookup_insert_eq.
Qed.

Lemma swap_lookup_other l i j k :
  k ≠ i → k ≠ j → swap l i j !! k = l !! k.
Proof.
  intros Hki Hkj. unfold swap. destruct (l !! j), (l !! i); try done.
  by rewrite !list_lookup_insert_ne.
Qed.

Lemma swap_fmap {B} (f : A → B) l i j :
  f <$> swap l i j = swap (f <$> l) i j.
Proof.
  unfold swap. rewrite !list_lookup_fmap.
  destruct (l !! j), (l !! i); simpl; try done.
  by rewrite !list_fmap_insert.
Qed.

Lemma shuffle_with_length i js l : length (shuffle_with i js l) = length l.
Proof.
  revert js l. induction i as [|i IH]; intros [|j js] l; simpl; try done.
  by rewrite IH, swap_length.
Qed.

Lemma shuffle_with_Permutation i js l : shuffle_with i js l ≡ₚ l.
Proof.
  revert js l. induction i as [|i IH]; intros [|j js] l; simpl; try done.
  by rewrite IH, swap_Permutation.
Qed.

Lemma shuffle_with_fmap {B} (f : A → B) i js l :
  f <$> shuffle_with i js l = shuffle_with i js (f <$> l).
Proof.
  revert js l. induction i as [|i IH]; intros [|j js] l; simpl; try done.
  by rewrite IH, swap_fmap.
Qed.
End ArrayFacts.

(** ** The space of index draws *)

Lemma floor_scaled_le r i : floor_scaled r (i + 1) ≤ i.
Proof.
  unfold floor_scaled. destruct r as [n s]; simpl.
  apply Nat.lt_succ_r. apply Nat.Div0.div_lt_upper_bound. nia.
Qed.

Lemma floor_scaled_draw_for i j : j ≤ i → floor_scaled (draw_for i j) (i + 1) = j.
Proof.
  intros Hj. unfold floor_scaled, draw_for; simpl.
  replace (j + (i - j) + 1) with (i + 1) by lia.
  apply Nat.div_mul. lia.
Qed.

Lemma elem_of_index_draws_0 js : js ∈ index_draws 0 ↔ js = [].
Proof. simpl. apply list_elem_of_singleton. Qed.

Lemma elem_of_index_draws_S i js :
  js ∈ index_draws (S i) ↔
  ∃ j js', js = j :: js' ∧ j ≤ S i ∧ js' ∈ index_draws i.
Proof.
  change (index_draws (S i))
    with (j ← seq 0 (S (S i)); (fun js => j :: js) <$> index_draws i).
  rewrite list_elem_of_bind. split.
  - intros (j & Hjs & Hj). apply list_elem_of_fmap in Hjs as (js' & -> & Hjs').
    apply elem_of_seq in Hj. exists j, js'. repeat split; [lia | done].
  - intros (j & js' & -> & Hj & Hjs'). exists j. split.
    + apply list_elem_of_fmap. by exists js'.
    + apply elem_of_seq. lia.
Qed.

Lemma drawn_in_range src c i : drawn src c i ∈ index_draws i.
Proof.
  revert c. induction i as [|i IH]; intros c.
  - by apply elem_of_index_draws_0.
  - apply elem_of_index_draws_S. eexists _, _. split; [done|]. split; [|apply IH].
    apply floor_scaled_le.
Qed.

(** The draws of a shuffle depend on the calls it makes and on no other. *)
Lemma drawn_ext src1 src2 c i :
  (∀ k, c ≤ k < c + i → src1 k = src2 k) → drawn src1 c i = drawn src2 c i.
Proof.
  revert c. induction i as [|i IH]; intros c Hext; [done|]. simpl.
  rewrite (Hext c) by lia. f_equal. apply IH. intros k Hk. apply Hext. lia.
Qed.

(** Every vector of [index_draws] is drawn from some random source. *)
Lemma drawn_realised i js c :
  js ∈ index_draws i → ∃ src, drawn src c i = js.
Proof.
  revert js c. induction i as [|i IH]; intros js c Hjs.
  - apply elem_of_index_draws_0 in Hjs as ->. by exists (λ _, Draw 0 0).
  - apply elem_of_index_draws_S in Hjs as (j & js' & -> & Hj & Hjs').
    destruct (IH js' (S c) Hjs') as [src' Hsrc'].
    exists (λ k, if decide (k = c) then draw_for (S i) j else src' k).
    simpl. rewrite decide_True by done.
    rewrite floor_scaled_draw_for by done. f_equal.
    rewrite <- Hsrc'. apply drawn_ext. intros k Hk.
    rewrite decide_False; [done | lia].
Qed.

Lemma length_bind_const {B C} (f : B → list C) (l : list B) n :
  (∀ x, length (f x) = n) → length (l ≫= f) = length l * n.
Proof.
  intros Hf. induction l as [|x l IH]; [done|].
  rewrite bind_cons, length_app, Hf, IH. simpl. lia.
Qed.

Lemma length_index_draws i : length (index_draws i) = fact (S i).
Proof.
  induction i as [|i IH]; [done|].
  change (index_draws (S i))
    with (j ← seq 0 (S (S i)); (fun js => j :: js) <$> index_draws i).
  rewrite (length_bind_const _ _ (fact (S i))).
  - rewrite length_seq. change (fact (S (S i))) with (S (S i) * fact (S i)). done.
  - intros j. by rewrite length_fmap.
Qed.

Lemma NoDup_bind_cons {B} (heads : list B) (tails : list (list B)) :
  NoDup heads → NoDup tails →
  NoDup (x ← heads; (fun xs => x :: xs) <$> tails).
Proof.
  intros Hh Ht. induction Hh as [|x heads Hx Hh IH]; simpl; [constructor|].
  apply NoDup_app. split; [|split; [|done]].
  - apply NoDup_fmap_2; [|done]. by intros ?? [=].
  - intros xs Hxs Hin. apply list_elem_of_fmap in Hxs as (xs' & -> & _).
    apply list_elem_of_bind in Hin as (y & Hin & Hy).
    apply list_elem_of_fmap in Hin as (ys & [= -> ->] & _). done.
Qed.

Lemma NoDup_index_draws i : NoDup (index_draws i).
Proof.
  induction i as [|i IH]; [apply NoDup_singleton|].
  apply NoDup_bind_cons; [apply NoDup_seq | done].
Qed.

(** A duplicate-free list in which one member satisfies [P], and any two
    members satisfying [P] are equal, has exactly one member satisfying [P]. *)
Lemma length_filter_unique {B} (P : B → Prop) `{∀ x, Decision (P x)}
    (l : list B) (x0 : B) :
  NoDup l → x0 ∈ l → P x0 →
  (∀ x, x ∈ l → P x → x = x0) →
  length (filter P l) = 1.
Proof.
  intros Hnd Hin HP Huniq.
  assert (Hf : NoDup (filter P l)) by by apply NoDup_filter.
  assert (Hx0 : x0 ∈ filter P l) by by apply list_elem_of_filter.
  assert (Hall : ∀ x, x ∈ filter P l → x = x0).
  { intros x [? ?]%list_elem_of_filter. by apply Huniq. }
  destruct (filter P l) as [|a [|b rest]]; simpl.
  - by apply elem_of_nil in Hx0.
  - done.
  - exfalso. apply NoDup_cons in Hf as [Hab _]. apply Hab.
    rewrite (Hall a), (Hall b); [left | right; left | left].
Qed.

Section ShuffleFacts.
Context {A : Type}.
Implicit Types (array l t : list A) (i j k : nat) (js : list nat).

(** Positions above the loop variable are never written again. *)
Lemma shuffle_with_lookup_above i js l k :
  js ∈ index_draws i → i < k → shuffle_with i js l !! k = l !! k.
Proof.
  revert js l. induction i as [|i IH]; intros js l Hjs Hk.
  - apply elem_of_index_draws_0 in Hjs as ->. done.
  - apply elem_of_index_draws_S in Hjs as (j & js' & -> & Hj & Hjs'). simpl.
    rewrite IH by (done || lia). apply swap_lookup_other; lia.
Qed.

(** Every ordering that agrees with [l] above index [i] is reached. *)
Lemma shuffle_with_reaches i l t :
  NoDup l → i ≤ length l - 1 → t ≡ₚ l →
  (∀ k, i < k → t !! k = l !! k) →
  ∃ js, js ∈ index_draws i ∧ shuffle_with i js l = t.
Proof.
  revert l. induction i as [|i IH]; intros l Hnd Hi Hperm Hsame.
  - exists []. split; [by apply elem_of_index_draws_0|]. simpl.
    assert (Hlen : length t = length l) by by rewrite Hperm.
    destruct l as [|a l], t as [|b t]; try done. f_equal.
    + assert (Hb : a ∈ b :: t) by (rewrite Hperm; left).
      apply elem_of_cons in Hb as [->|Hb]; [done|].
      assert (Ht : t = l).
      { apply list_eq. intros k. apply (Hsame (S k)). lia. }
      subst t. apply NoDup_cons in Hnd as [Ha _]. done.
    + symmetry. apply list_eq. intros k. apply (Hsame (S k)). lia.
  - assert (Hlen : length t = length l) by by rewrite Hperm.
    assert (Hndt : NoDup t) by by rewrite Hperm.
    destruct (lookup_lt_is_Some_2 t (S i)) as [x Hx]; [lia|].
    assert (Hxl : x ∈ l).
    { rewrite <- Hperm. by eapply list_elem_of_lookup_2. }
    apply list_elem_of_lookup in Hxl as [j Hj].
    assert (Hjle : j ≤ S i).
    { destruct (decide (j ≤ S i)) as [|Hgt]; [done|].
      assert (Htj : t !! j = Some x) by (rewrite Hsame by lia; done).
      pose proof (NoDup_lookup _ _ _ _ Hndt Htj Hx). lia. }
    destruct (IH (swap l (S i) j)) as (js' & Hjs' & Hsh).
    + by rewrite swap_Permutation.
    + rewrite swap_length. lia.
    + by rewrite swap_Permutation.
    + intros k Hk. destruct (decide (k = S i)) as [->|Hne].
      * rewrite swap_lookup_upper by lia. congruence.
      * rewrite swap_lookup_other by lia. apply Hsame. lia.
    + exists (j :: js'). split; [|done].
      apply elem_of_index_draws_S. by exists j, js'.
Qed.

(** Different draws give different orderings. *)
Lemma shuffle_with_inj i l js1 js2 :
  NoDup l → i ≤ length l - 1 →
  js1 ∈ index_draws i → js2 ∈ index_draws i →
  shuffle_with i js1 l = shuffle_with i js2 l → js1 = js2.
Proof.
  revert l js1 js2. induction i as [|i IH]; intros l js1 js2 Hnd Hi H1 H2 Heq.
  - apply elem_of_index_draws_0 in H1, H2. congruence.
  - apply elem_of_index_draws_S in H1 as (j1 & js1' & -> & Hj1 & H1).
    apply elem_of_index_draws_S in H2 as (j2 & js2' & -> & Hj2 & H2).
    simpl in Heq.
    assert (Hj : j1 = j2).
    { assert (Hl : l !! j1 = l !! j2).
      { rewrite <- (swap_lookup_upper l (S i) j1), <- (swap_lookup_upper l (S i) j2)
          by lia.
        rewrite <- (shuffle_with_lookup_above i js1' _ (S i)) by (done || lia).
        rewrite <- (shuffle_with_lookup_above i js2' (swap l (S i) j2) (S i))
          by (done || lia).
        by rewrite Heq. }
      destruct (lookup_lt_is_Some_2 l j1) as [x Hx]; [lia|].
      rewrite Hx in Hl. symmetry in Hl. by eapply NoDup_lookup. }
    subst j2. f_equal. apply (IH (swap l (S i) j1)); try done.
    + by rewrite swap_Permutation.
    + rewrite swap_length. lia.
Qed.
End ShuffleFacts.

(** ** Running the monad *)

Lemma emit_emit es1 es2 w : emit es2 (emit es1 w) = emit (es1 ++ es2) w.
Proof. unfold emit; simpl. by rewrite <- (assoc_L (++)). Qed.

Lemma emit_nil w : emit [] w = w.
Proof. destruct w. unfold emit; simpl. by rewrite app_nil_r. Qed.

Lemma sent_app es1 es2 : sent (es1 ++ es2) = sent es1 ++ sent es2.
Proof. apply omap_app. Qed.

Lemma sent_logs lines : sent (ConsoleLog <$> lines) = [].
Proof. induction lines; simpl; done. Qed.

Lemma when_log_run b line w :
  ∃ lines, when b (console_log line) w = Returns tt (emit (ConsoleLog <$> lines) w).
Proof.
  destruct b; simpl.
  - by exists [line].
  - exists []. unfold ret. by rewrite emit_nil.
Qed.

Section MatcherFacts.
Context (args : list string) (participants : list participant).
Context (random_source : nat → unit_interval).

Local Abbreviation groups := (groups_on args).
Local Abbreviation N := (length participants).
Local Abbreviation first_accepted := (first_accepted args participants random_source).

Lemma shuffle_from_run {A} i (array : list A) w :
  shuffle_from random_source i array w =
  Returns (shuffle_with i (drawn random_source (rand_calls w) i) array)
          (World (rand_calls w + i) (effects w)).
Proof.
  revert array w. induction i as [|i IH]; intros array w.
  - destruct w; simpl. unfold ret. by rewrite Nat.add_0_r.
  - simpl. unfold bind, Math_random. rewrite IH. simpl.
    do 2 f_equal. lia.
Qed.

Lemma shuffle_run {A} (array : list A) w :
  shuffle random_source array w =
  Returns (shuffle_with (length array - 1)
             (drawn random_source (rand_calls w) (length array - 1)) array)
          (World (rand_calls w + (length array - 1)) (effects w)).
Proof. apply shuffle_from_run. Qed.

Lemma zero_violations_cons g giver rest receiver receivers :
  zero_violations g (giver :: rest) (receiver :: receivers) =
  negb (violation g giver receiver) && zero_violations g rest receivers.
Proof. done. Qed.

(** The loop with [break] computes the negation of [zero_violations]; it
    never reads past the end of [receivers] and only writes to the console. *)
Lemma check_from_run rest : ∀ i receivers w,
  i + length rest = length receivers →
  ∃ lines,
    check_from args i rest receivers w =
    Returns (negb (zero_violations groups rest (drop i receivers)))
            (emit (ConsoleLog <$> lines) w).
Proof.
  induction rest as [|giver rest IH]; intros i receivers w Hlen.
  - exists []. simpl. unfold ret. by rewrite emit_nil.
  - simpl in Hlen.
    destruct (lookup_lt_is_Some_2 receivers i) as [receiver Hr]; [lia|].
    rewrite (drop_S _ _ _ Hr), zero_violations_cons. simpl. rewrite Hr.
    unfold violation, bind.
    match goal with
    | |- context [when ?b (console_log ?line) w] =>
        destruct (when_log_run b line w) as [l1 Hw1]; rewrite Hw1
    end.
    destruct (self_match giver receiver); simpl.
    + unfold console_log, ret. rewrite emit_emit.
      eexists (l1 ++ [_]). by rewrite fmap_app.
    + destruct (groups && group_conflict giver receiver); simpl.
      * unfold console_log, ret. rewrite emit_emit.
        eexists (l1 ++ [_]). by rewrite fmap_app.
      * destruct (IH (S i) receivers (emit (ConsoleLog <$> l1) w)) as [l2 Hl2]; [lia|].
        exists (l1 ++ l2). by rewrite Hl2, emit_emit, fmap_app.
Qed.

Lemma retry_run fuel : ∀ attempts w,
  ∃ lines attempts',
    retry args participants random_source fuel attempts participants w =
    match first_accepted (rand_calls w) fuel with
    | Some (receivers, c) =>
        Returns (receivers, attempts') (World c (effects w ++ (ConsoleLog <$> lines)))
    | None => Loops
    end.
Proof.
  induction fuel as [|fuel IH]; intros attempts w; [by exists [], 0|].
  simpl. unfold bind at 1. unfold console_log at 1.
  unfold bind at 1. rewrite shuffle_run. simpl rand_calls.
  fold (candidate participants random_source (rand_calls w)).
  set (receivers := candidate participants random_source (rand_calls w)).
  unfold bind at 1.
  edestruct (check_from_run participants 0 receivers) as [lines Hc];
    [by unfold receivers, candidate; rewrite shuffle_with_length|].
  rewrite Hc. clear Hc. rewrite drop_0.
  destruct (zero_violations groups participants receivers); simpl.
  - eexists (_ :: lines), _. unfold ret, emit; simpl.
    by rewrite <- (assoc_L (++)).
  - edestruct IH as (lines' & att & ->). simpl rand_calls.
    destruct (first_accepted _ fuel) as [[rs c]|]; [|by exists [], 0].
    eexists (_ :: lines ++ lines'), att. simpl effects.
    by rewrite fmap_cons, fmap_app, <- !(assoc_L (++)).
Qed.

Lemma rejection_sampling_run fuel : ∀ w,
  rejection_sampling args participants random_source fuel w =
  match first_accepted (rand_calls w) fuel with
  | Some (receivers, c) =>
      Returns (pair_up participants receivers) (World c (effects w))
  | None => Loops
  end.
Proof.
  induction fuel as [|fuel IH]; intros w; [done|].
  simpl. unfold bind. rewrite shuffle_run.
  fold (candidate participants random_source (rand_calls w)).
  destruct (zero_violations groups participants _); [done|].
  by rewrite IH.
Qed.

Lemma createAssignments_run fuel w :
  ∃ lines,
    createAssignments args participants random_source fuel w =
    match first_accepted (rand_calls w) fuel with
    | Some (receivers, c) =>
        Returns (pair_up participants receivers)
                (World c (effects w ++ (ConsoleLog <$> lines)))
    | None => Loops
    end.
Proof.
  unfold createAssignments, bind. unfold console_log at 1.
  edestruct (retry_run fuel 0) as (lines & att & ->). simpl rand_calls.
  destruct (first_accepted _ fuel) as [[rs c]|]; [|by exists []].
  unfold console_log, ret, emit; simpl.
  eexists (_ :: lines ++ [_]).
  by rewrite fmap_cons, fmap_app, <- !(assoc_L (++)).
Qed.

Lemma first_accepted_Some c fuel receivers c' :
  first_accepted c fuel = Some (receivers, c') →
  receivers ≡ₚ participants ∧
  zero_violations groups participants receivers = true ∧
  ∃ k, k < fuel ∧ receivers = candidate participants random_source (c + k * (N - 1))
       ∧ c' = c + (k + 1) * (N - 1).
Proof.
  revert c. induction fuel as [|fuel IH]; intros c; [done|]. simpl.
  destruct (zero_violations _ _ (candidate _ _ c)) eqn:Hz.
  - intros [= <- <-]. split; [apply shuffle_with_Permutation|]. split; [done|].
    exists 0. split; [lia|]. split; [f_equal|]; lia.
  - intros (Hp & Hv & k & Hk & -> & ->)%IH. split; [done|]. split; [done|].
    exists (S k). split; [lia|]. split; [f_equal|]; lia.
Qed.

Lemma first_accepted_first c fuel receivers c' :
  first_accepted c fuel = Some (receivers, c') →
  ∃ k, k < fuel ∧
    receivers = candidate participants random_source (c + k * (N - 1)) ∧
    zero_violations groups participants
      (candidate participants random_source (c + k * (N - 1))) = true ∧
    ∀ k', k' < k →
      zero_violations groups participants
        (candidate participants random_source (c + k' * (N - 1))) = false.
Proof.
  revert c. induction fuel as [|fuel IH]; intros c; [done|]. simpl.
  destruct (zero_violations _ _ (candidate _ _ c)) eqn:Hz.
  - intros [= <- <-]. exists 0. rewrite Nat.add_0_r.
    repeat split; [lia | done | lia].
  - intros (k & Hk & -> & Hzk & Hbefore)%IH. exists (S k).
    replace (c + S k * (N - 1)) with (c + (N - 1) + k * (N - 1)) by lia.
    repeat split; [lia | done |]. intros [|k'] Hk'.
    + by rewrite Nat.add_0_r.
    + replace (c + S k' * (N - 1)) with (c + (N - 1) + k' * (N - 1)) by lia.
      apply Hbefore. lia.
Qed.

Lemma first_accepted_None c fuel :
  first_accepted c fuel = None ↔
  forallb (rejected args participants)
          (attempts_drawn participants random_source c fuel) = true.
Proof.
  revert c. induction fuel as [|fuel IH]; intros c; [done|]. simpl.
  unfold rejected at 1. fold (candidate participants random_source c).
  destruct (zero_violations _ _ _); simpl; [done|]. apply IH.
Qed.

End MatcherFacts.

(** ** The shuffle is unbiased *)

(** C4.  [shuffle] is an unbiased Fisher-Yates shuffle.  For an array of
    length N without repeated elements, a run of [shuffle] makes the index
    draws [j] for [i = N-1, ..., 1], each within [0..i], and returns the
    array these draws produce; every such vector of draws comes from some
    random source.  The vectors are listed once each in
    [index_draws (N-1)], there are N! of them, and every ordering [target]
    of the array is produced by exactly one of them.  With every draw
    uniform on [0..i] the vectors are equally likely, so each of the N!
    orderings has probability 1/N!. *)
Theorem shuffle_unbiased {A} `{EqDecision A} (array target : list A) :
  NoDup array → array ≡ₚ target →
  let N := length array in
  (∀ random_source w,
      drawn random_source (rand_calls w) (N - 1) ∈ index_draws (N - 1) ∧
      shuffle random_source array w =
      Returns (shuffle_with (N - 1) (drawn random_source (rand_calls w) (N - 1)) array)
              (World (rand_calls w + (N - 1)) (effects w))) ∧
  (∀ js c, js ∈ index_draws (N - 1) →
           ∃ random_source, drawn random_source c (N - 1) = js) ∧
  NoDup (index_draws (N - 1)) ∧
  length (index_draws (N - 1)) = fact N ∧
  length (filter (λ js, shuffle_with (N - 1) js array = target)
                 (index_draws (N - 1))) = 1.
Proof.
  intros Hnd Hperm N. split; [|split; [|split; [|split]]].
  - intros src w. split; [apply drawn_in_range | apply shuffle_run].
  - intros js c Hjs. by apply drawn_realised.
  - apply NoDup_index_draws.
  - rewrite length_index_draws. subst N.
    destruct (length array) as [|n]; [done|].
    by replace (S n - 1) with n by lia.
  - destruct (shuffle_with_reaches (N - 1) array target) as (js & Hjs & Hsh);
      [done | done | done | |].
    { intros k Hk. assert (Hlen : length target = length array) by by rewrite Hperm.
      subst N. by rewrite (lookup_ge_None_2 target), (lookup_ge_None_2 array) by lia. }
    apply (length_filter_unique _ _ js); [apply NoDup_index_draws | done | done |].
    intros js' Hjs' Hsh'. apply (shuffle_with_inj (N - 1) array); try done.
    congruence.
Qed.

Lemma shuffle_unbiased_witness :
  length (filter (λ js, shuffle_with 2 js [10; 20; 30] = [20; 30; 10])
                 (index_draws 2)) = 1.
Proof.
  apply (shuffle_unbiased [10; 20; 30] [20; 30; 10]).
  - apply (bool_decide_unpack _). vm_compute. exact I.
  - rewrite (Permutation_cons_append [20; 30] 10). reflexivity.
Defined.

(** ** The matcher *)

Lemma pair_up_givers gs rs : length gs ≤ length rs → giver <$> pair_up gs rs = gs.
Proof.
  revert rs. induction gs as [|g gs IH]; intros [|r rs] Hlen; simpl in *;
    try done; try lia.
  f_equal. apply IH. lia.
Qed.

Lemma pair_up_receivers gs rs :
  length rs ≤ length gs → receiver <$> pair_up gs rs = rs.
Proof.
  revert rs. induction gs as [|g gs IH]; intros [|r rs] Hlen; simpl in *;
    try done; try lia.
  f_equal. apply IH. lia.
Qed.

Lemma zero_violations_Forall g gs rs :
  zero_violations g gs rs = true →
  Forall (λ a, violation g (giver a) (receiver a) = false) (pair_up gs rs).
Proof.
  unfold zero_violations. intros Hz. apply Forall_forall. intros a Ha.
  apply negb_true_iff. rewrite forallb_forall in Hz. apply Hz.
  by apply list_elem_of_In.
Qed.

(** C1.  Whenever [createAssignments] returns for a list of N >= 2
    participants, it returns exactly N assignments, their givers are the
    participants in input order, their receivers are a permutation of the
    participants, and no giver has the unique id of the receiver. *)
Theorem createAssignments_valid args participants random_source fuel w out w' :
  2 ≤ length participants →
  createAssignments args participants random_source fuel w = Returns out w' →
  length out = length participants ∧
  giver <$> out = participants ∧
  receiver <$> out ≡ₚ participants ∧
  Forall (λ a, uid (giver a) ≠ uid (receiver a)) out.
Proof.
  intros _ Hrun.
  destruct (createAssignments_run args participants random_source fuel w)
    as [lines Hc].
  rewrite Hrun in Hc.
  destruct (first_accepted _ _ _ _ fuel) as [[rs c]|] eqn:Hf; [|done].
  injection Hc as -> ->.
  apply first_accepted_Some in Hf as (Hperm & Hz & _).
  assert (Hlen : length rs = length participants) by by rewrite Hperm.
  split; [|split; [|split]].
  - unfold pair_up. rewrite length_zip_with. lia.
  - apply pair_up_givers. lia.
  - rewrite pair_up_receivers by lia. done.
  - eapply Forall_impl; [by apply zero_violations_Forall|].
    intros a Ha. apply orb_false_iff in Ha as [Ha _]. by apply Nat.eqb_neq.
Qed.

Lemma createAssignments_valid_witness :
  let out := [Assignment alice bob; Assignment bob carol; Assignment carol alice] in
  length out = 3 ∧
  giver <$> out = [alice; bob; carol] ∧
  receiver <$> out ≡ₚ [alice; bob; carol] ∧
  Forall (λ a, uid (giver a) ≠ uid (receiver a)) out.
Proof.
  eapply (createAssignments_valid [] [alice; bob; carol] (always (Draw 0 0)) 1 start).
  - simpl. lia.
  - vm_compute. reflexivity.
Defined.

Section Unsatisfiable.
Context (args : list string) (participants : list participant).
Context (random_source : nat → unit_interval).

Lemma first_accepted_unsatisfiable c fuel :
  (∀ receivers, receivers ≡ₚ participants →
     zero_violations (groups_on args) participants receivers = false) →
  first_accepted args participants random_source c fuel = None.
Proof.
  intros Hno. revert c. induction fuel as [|fuel IH]; intros c; [done|].
  simpl. rewrite Hno; [apply IH|]. apply shuffle_with_Permutation.
Qed.
End Unsatisfiable.

(** Checking every permutation is a way to establish that none is valid. *)
Lemma no_valid_matching_by_enumeration groups participants :
  forallb (λ receivers, negb (zero_violations groups participants receivers))
          (permutations participants) = true →
  ∀ receivers, receivers ≡ₚ participants →
    zero_violations groups participants receivers = false.
Proof.
  intros Hall receivers Hperm. rewrite forallb_forall in Hall.
  apply negb_true_iff, Hall, list_elem_of_In, permutations_Permutation.
  done.
Qed.

(** C3.  With group exclusion enabled and no ordering of the participants
    that passes both checks, the retry loop is still running after every
    number of iterations, whatever the random draws: [createAssignments]
    never returns, and it never throws or ends the process either, since the
    loop has no bound on its attempts and no failure exit. *)
Theorem createAssignments_unsatisfiable_loops args participants :
  groups_on args = true →
  (∀ receivers, receivers ≡ₚ participants →
     zero_violations true participants receivers = false) →
  ∀ random_source fuel w,
    createAssignments args participants random_source fuel w = Loops.
Proof.
  intros Hg Hno src fuel w.
  destruct (createAssignments_run args participants src fuel w) as [lines ->].
  rewrite first_accepted_unsatisfiable; [done|]. by rewrite Hg.
Qed.

Lemma createAssignments_unsatisfiable_loops_witness :
  createAssignments ["--groups"%string]
    [Participant 1 "Ann" "ann@example.com" (Some "north");
     Participant 2 "Ben" "ben@example.com" (Some "north")]%string
    (always (Draw 0 0)) 50 start = Loops.
Proof.
  apply createAssignments_unsatisfiable_loops.
  - reflexivity.
  - apply no_valid_matching_by_enumeration. vm_compute. reflexivity.
Defined.

(** C5.  The loop of [createAssignments] is whole-permutation rejection
    sampling.  Apart from console output it computes exactly what the
    reference definition [rejection_sampling] computes: the same outcome, the
    same assignments and the same number of random draws, for every random
    source, every number of loop iterations and every starting state.  In
    particular each candidate is a shuffle of the full participant list
    drawn afresh ([candidate]), a candidate with a violation at any index is
    dropped whole, and the first candidate without violation is returned
    unchanged. *)
Theorem createAssignments_is_rejection_sampling args participants random_source
    fuel w :
  quiet (createAssignments args participants random_source fuel w) =
  quiet (rejection_sampling args participants random_source fuel w)
  ∧ (∀ out w',
       createAssignments args participants random_source fuel w = Returns out w' →
       ∃ k, k < fuel ∧
         out = pair_up participants
                 (candidate participants random_source
                    (rand_calls w + k * (length participants - 1))) ∧
         zero_violations (groups_on args) participants
           (candidate participants random_source
              (rand_calls w + k * (length participants - 1))) = true ∧
         ∀ k', k' < k →
           zero_violations (groups_on args) participants
             (candidate participants random_source
                (rand_calls w + k' * (length participants - 1))) = false).
Proof.
  destruct (createAssignments_run args participants random_source fuel w)
    as [lines Hc].
  rewrite rejection_sampling_run, Hc. split.
  - by destruct (first_accepted _ _ _ _ fuel) as [[rs c]|].
  - intros out w' Hrun.
    destruct (first_accepted _ _ _ _ fuel) as [[rs c]|] eqn:Hf; [|done].
    injection Hrun as <- <-.
    apply first_accepted_first in Hf as (k & Hk & -> & Hz & Hbefore).
    by exists k.
Qed.

(** ** The notifier *)

Section NotifierFacts.
Context (args : list string).
Context (YOUR_EMAIL YOUR_APP_PASSWORD : option string).
Context (sendMail_result : nat → mailOptions → option thrown).

Local Abbreviation notify_each := (notify args YOUR_EMAIL sendMail_result).

Lemma for_of_notify_dry assignments w :
  DRY_RUN args = true →
  for_of assignments notify_each w =
  Returns tt (emit ((λ a, ConsoleLog (dry_run_line a)) <$> assignments) w).
Proof.
  intros Hdry. revert w.
  induction assignments as [|a rest IH]; intros w; simpl.
  - unfold ret. by rewrite emit_nil.
  - unfold bind, notify at 1. rewrite Hdry. unfold console_log.
    by rewrite IH, emit_emit.
Qed.

(** The loop in live mode: it runs to the end, or it is left with the
    TypeError of the catch block. *)
Lemma for_of_notify_live assignments w :
  DRY_RUN args = false →
  for_of assignments notify_each w =
  let events :=
    delivery YOUR_EMAIL sendMail_result (length (sent (effects w))) assignments in
  match delivery_error YOUR_EMAIL sendMail_result
          (length (sent (effects w))) assignments with
  | None => Returns tt (emit events w)
  | Some e => Throws e (emit events w)
  end.
Proof.
  intros Hlive. revert w.
  induction assignments as [|a rest IH]; intros w; simpl.
  - unfold ret. by rewrite emit_nil.
  - unfold bind at 1, notify at 1. rewrite Hlive.
    unfold try_catch, bind, sendMail.
    destruct (sendMail_result _ _) as [[| |message]|]; simpl.
    + done.
    + done.
    + unfold console_error. rewrite IH, emit_emit. cbv zeta.
      replace (length (sent (effects (emit ([SendMail (mail_for YOUR_EMAIL a)]
                 ++ [ConsoleError (failure_line a (render message))]) w))))
        with (S (length (sent (effects w))))
        by (simpl; rewrite sent_app, length_app; simpl; lia).
      destruct (delivery_error _ _ _ rest); by rewrite !emit_emit.
    + unfold console_log. rewrite IH, emit_emit. cbv zeta.
      replace (length (sent (effects (emit ([SendMail (mail_for YOUR_EMAIL a)]
                 ++ [ConsoleLog (success_line a)]) w))))
        with (S (length (sent (effects w))))
        by (simpl; rewrite sent_app, length_app; simpl; lia).
      destruct (delivery_error _ _ _ rest); by rewrite !emit_emit.
Qed.



Lemma sent_delivery k assignments :
  delivery_error YOUR_EMAIL sendMail_result k assignments = None →
  sent (delivery YOUR_EMAIL sendMail_result k assignments) =
  mail_for YOUR_EMAIL <$> assignments.
Proof.
  revert k. induction assignments as [|a rest IH]; intros k; simpl; [done|].
  destruct (sendMail_result k _) as [[| |message]|]; simpl; try done;
    intros Hnone; by rewrite IH.
Qed.

End NotifierFacts.

Lemma includes_elem_of array x : includes array x = true ↔ x ∈ array.
Proof.
  unfold includes. rewrite existsb_exists. split.
  - intros (y & Hy & ->%String.eqb_eq). by apply list_elem_of_In.
  - intros Hx. exists x. split; [by apply list_elem_of_In | apply String.eqb_refl].
Qed.

Lemma includes_app array1 array2 x :
  includes (array1 ++ array2) x = includes array1 x || includes array2 x.
Proof. apply existsb_app. Qed.

Lemma DRY_RUN_flag args :
  DRY_RUN args = true ↔ "--dry-run"%string ∈ args ∨ "-d"%string ∈ args.
Proof. unfold DRY_RUN. by rewrite orb_true_iff, !includes_elem_of. Qed.

Lemma sent_dry_run_lines assignments :
  sent ((λ a, ConsoleLog (dry_run_line a)) <$> assignments) = [].
Proof. induction assignments; simpl; done. Qed.

(** C6.  With [--dry-run] or [-d] among the arguments, [sendEmails] never
    calls [transporter.sendMail]: for every list of assignments it returns
    after creating the transport and printing the header and one
    "(DRY RUN) Would email ..." line per assignment, and the mails sent are
    those sent before it started.  The same holds for a whole run of the
    script, whatever the participants, their groups, the random draws and
    the behaviour of the transport. *)
Theorem dry_run_sends_nothing args participants YOUR_EMAIL YOUR_APP_PASSWORD
    random_source sendMail_result dotenv_lines :
  "--dry-run"%string ∈ args ∨ "-d"%string ∈ args →
  (∀ assignments w,
     let printed :=
       CreateTransport YOUR_EMAIL YOUR_APP_PASSWORD
       :: ConsoleLog sending_header
       :: ((λ a, ConsoleLog (dry_run_line a)) <$> assignments) in
     sendEmails args YOUR_EMAIL YOUR_APP_PASSWORD sendMail_result assignments w
     = Returns tt (emit printed w)
     ∧ sent printed = []) ∧
  (∀ fuel w w',
     final_world (script args participants YOUR_EMAIL YOUR_APP_PASSWORD
                    random_source sendMail_result dotenv_lines fuel w) = Some w' →
     sent (effects w') = sent (effects w)).
Proof.
  intros Hdry%DRY_RUN_flag. split.
  - intros assignments w printed. split; [|apply sent_dry_run_lines].
    unfold sendEmails, bind, createTransport, console_log.
    by rewrite for_of_notify_dry, !emit_emit.
  - intros fuel w w'. unfold script, bind at 1, dotenv_config.
    destruct (includes args "--help" || includes args "-h").
    { intros [= <-]. simpl. by rewrite !sent_app, sent_logs, !app_nil_r. }
    unfold try_catch, main. destruct (length participants <? 2).
    { intros [= <-]. simpl. by rewrite !sent_app, sent_logs, !app_nil_r. }
    rewrite Hdry. unfold bind at 1. unfold when, bind at 1, console_log at 1.
    unfold bind at 1, console_log at 1. unfold bind at 1, console_log at 1.
    unfold console_log at 1. unfold bind at 1.
    match goal with
    | |- context [createAssignments _ _ _ fuel ?w0] =>
        destruct (createAssignments_run args participants random_source fuel w0)
          as [lines ->]; simpl rand_calls; simpl effects
    end.
    destruct (first_accepted _ _ _ _ fuel) as [[rs c]|]; [|done].
    unfold bind, sendEmails, bind, createTransport, console_log.
    rewrite for_of_notify_dry by done.
    intros [= <-]. simpl.
    rewrite !sent_app, !sent_logs, sent_dry_run_lines. simpl.
    by rewrite !app_nil_r.
Qed.

Lemma dry_run_sends_nothing_witness :
  let printed :=
    CreateTransport None None
    :: ConsoleLog sending_header
    :: ((λ a, ConsoleLog (dry_run_line a))
          <$> [Assignment alice bob; Assignment bob alice]) in
  sendEmails ["-d"%string] None None
    (λ _ _, Some (Thrown (Some "connection refused"%string)))
    [Assignment alice bob; Assignment bob alice] start
  = Returns tt (emit printed start)
  ∧ sent printed = [].
Proof.
  apply (proj1 (dry_run_sends_nothing ["-d"%string] [alice; bob] None None
                  (always (Draw 0 0))
                  (λ _ _, Some (Thrown (Some "connection refused"%string))) []
                  (or_intror (list_elem_of_here _ _)))).
Defined.




(** C8.  With fewer than two participants [main] is nothing but the call of
    [console.error] that reports it: the run prints that one line and
    returns.  [createAssignments], whose first action is to print
    "Creating assignments...", and [sendEmails], whose first action is to
    create the transport, are not called, and no random number is drawn. *)
Theorem too_few_participants_halts args participants YOUR_EMAIL
    YOUR_APP_PASSWORD random_source sendMail_result fuel :
  length participants < 2 →
  main args participants YOUR_EMAIL YOUR_APP_PASSWORD random_source
    sendMail_result fuel
  = console_error too_few_participants
  ∧ ∀ w,
      main args participants YOUR_EMAIL YOUR_APP_PASSWORD random_source
        sendMail_result fuel w
      = Returns tt (World (rand_calls w)
                      (effects w ++ [ConsoleError too_few_participants])).
Proof.
  intros Hfew. unfold main.
  assert (Hlt : (length participants <? 2) = true) by by apply Nat.ltb_lt.
  rewrite Hlt. done.
Qed.

Lemma too_few_participants_halts_witness :
  main [] [alice] None None (always (Draw 0 0)) (λ _ _, None) 10
  = console_error too_few_participants
  ∧ ∀ w,
      main [] [alice] None None (always (Draw 0 0)) (λ _ _, None) 10 w
      = Returns tt (World (rand_calls w)
                      (effects w ++ [ConsoleError too_few_participants])).
Proof.
  apply (too_few_participants_halts [] [alice] None None (always (Draw 0 0))
           (λ _ _, None) 10).
  simpl. lia.
Defined.

(** The first action of [createAssignments] and of [sendEmails]. *)
Lemma createAssignments_announces args participants random_source fuel w w' :
  final_world (createAssignments args participants random_source fuel w) = Some w' →
  ∃ later, effects w' = effects w ++ ConsoleLog "Creating assignments..." :: later.
Proof.
  destruct (createAssignments_run args participants random_source fuel w)
    as [lines Hc].
  unfold createAssignments, bind in *. unfold console_log at 1.
  unfold console_log at 1 in Hc.
  destruct (retry_run args participants random_source fuel 0
              (emit [ConsoleLog "Creating assignments..."] w))
    as (lines' & att & ->).
  destruct (first_accepted _ _ _ _ fuel) as [[rs c]|]; [|done].
  simpl. intros [= <-]. simpl. rewrite <- !(assoc_L (++)). by eexists.
Qed.

Lemma sendEmails_creates_transport args YOUR_EMAIL YOUR_APP_PASSWORD
    sendMail_result assignments w w' :
  final_world (sendEmails args YOUR_EMAIL YOUR_APP_PASSWORD sendMail_result
                 assignments w) = Some w' →
  ∃ later,
    effects w' = effects w ++ CreateTransport YOUR_EMAIL YOUR_APP_PASSWORD :: later.
Proof.
  unfold sendEmails, bind, createTransport, console_log.
  destruct (DRY_RUN args) eqn:Hd.
  - rewrite for_of_notify_dry by done. intros [= <-]. simpl.
    rewrite <- !(assoc_L (++)). by eexists.
  - rewrite for_of_notify_live by done. cbv zeta.
    destruct (delivery_error _ _ _ _); intros [= <-]; simpl;
      rewrite <- !(assoc_L (++)); by eexists.
Qed.

(** ** Command-line flags *)

(** C9.  Group exclusion is on exactly when the arguments include
    [--groups] or [-g].  The flag [--group-check], which is the long name
    the help text prints next to [-g], is not recognised: adding it to the
    arguments anywhere leaves [groups_on] as it was, and alone it leaves
    group exclusion off.  The help text does not mention [--groups]. *)
Theorem groups_on_flag args :
  (groups_on args = true ↔ "--groups"%string ∈ args ∨ "-g"%string ∈ args)
  ∧ (∀ before after,
       groups_on (before ++ "--group-check"%string :: after)
       = groups_on (before ++ after))
  ∧ groups_on ["--group-check"%string] = false
  ∧ String.index 0 "-g, --group-check" help_text ≠ None
  ∧ String.index 0 "--groups" help_text = None.
Proof.
  split; [|split; [|split; [|split]]].
  - unfold groups_on. by rewrite orb_true_iff, !includes_elem_of.
  - intros before after. unfold groups_on.
    by rewrite !includes_app.
  - reflexivity.
  - vm_compute. discriminate.
  - vm_compute. reflexivity.
Qed.

(** C10.  The group check treats a falsy label as absent.  The empty string
    and a missing label are falsy; when the giver's or the receiver's label is
    falsy the pair is no group conflict, also when the two labels are equal;
    and with [--groups] given, two participants whose labels are both the
    empty string are assigned to each other. *)
Theorem falsy_group_is_no_group :
  truthy (Some ""%string) = false
  ∧ truthy None = false
  ∧ (∀ giver receiver,
       truthy (group giver) = false ∨ truthy (group receiver) = false →
       group_conflict giver receiver = false)
  ∧ (let ann := Participant 1 "Ann" "ann@example.com" (Some "") in
     let ben := Participant 2 "Ben" "ben@example.com" (Some "") in
     groups_on ["--groups"] = true
     ∧ group ann = group ben
     ∧ ∃ w,
         createAssignments ["--groups"] [ann; ben] (always (Draw 0 0)) 1 start
         = Returns [Assignment ann ben; Assignment ben ann] w)%string.
Proof.
  split; [done|]. split; [done|]. split.
  - intros giver receiver [H|H]; unfold group_conflict; rewrite H; simpl;
      [done | by rewrite andb_false_r].
  - repeat split. eexists. vm_compute. reflexivity.
Qed.

(** ** Termination of the retry loop *)

(** Every ordering of an array is reached by some draws, also when the
    array has repeated elements: tag every element with its index. *)
Lemma shuffle_with_reaches_any {A} (l t : list A) :
  t ≡ₚ l →
  ∃ js, js ∈ index_draws (length l - 1) ∧ shuffle_with (length l - 1) js l = t.
Proof.
  intros Hperm.
  set (tagged := zip (seq 0 (length l)) l).
  assert (Hl : l = tagged.*2).
  { symmetry. apply snd_zip. by rewrite length_seq. }
  assert (Hnd : NoDup tagged) by apply NoDup_zip_l, NoDup_seq.
  assert (Hlen : length tagged = length l).
  { unfold tagged. rewrite length_zip, length_seq. lia. }
  rewrite Hl in Hperm at 1.
  apply Permutation_map_inv in Hperm as (t' & -> & Ht').
  destruct (shuffle_with_reaches (length l - 1) tagged t') as (js & Hjs & Hsh);
    [done | lia | done | |].
  { intros k Hk. assert (length t' = length tagged) by by rewrite Ht'.
    by rewrite (lookup_ge_None_2 t'), (lookup_ge_None_2 tagged) by lia. }
  exists js. split; [done|].
  rewrite Hl at 2. change (map snd t') with (snd <$> t').
  by rewrite <- shuffle_with_fmap, Hsh.
Qed.

Section Sequences.
Context (rej : list nat → bool).

Lemma length_filter_cons_fmap (js : list nat) (tails : list (list (list nat))) :
  length (filter (λ jss, forallb rej jss = true) ((λ jss, js :: jss) <$> tails))
  = if rej js then length (filter (λ jss, forallb rej jss = true) tails) else 0.
Proof.
  induction tails as [|jss tails IH]; [by destruct (rej js)|].
  rewrite fmap_cons, !filter_cons. simpl forallb.
  destruct (rej js) eqn:Hjs; simpl.
  - destruct (decide (forallb rej jss = true)); simpl; by rewrite IH.
  - destruct (decide (false = true)); [done|]. by rewrite IH.
Qed.

Lemma length_filter_sequences i k :
  length (filter (λ jss, forallb rej jss = true) (draw_sequences i k))
  = length (filter (λ js, rej js = true) (index_draws i)) ^ k.
Proof.
  induction k as [|k IH]; [done|].
  change (draw_sequences i (S k))
    with (js ← index_draws i; (λ jss, js :: jss) <$> draw_sequences i k).
  rewrite Nat.pow_succ_r', <- IH. clear IH.
  induction (index_draws i) as [|js heads IHh]; [done|].
  rewrite bind_cons, filter_app, length_app, length_filter_cons_fmap, IHh.
  rewrite (filter_cons _ js).
  destruct (rej js); simpl.
  - destruct (decide (true = true)); [|done]. simpl. lia.
  - destruct (decide (false = true)); [done|]. lia.
Qed.
End Sequences.

Lemma length_draw_sequences i k :
  length (draw_sequences i k) = fact (S i) ^ k.
Proof.
  induction k as [|k IH]; [done|].
  change (draw_sequences i (S k))
    with (js ← index_draws i; (λ jss, js :: jss) <$> draw_sequences i k).
  rewrite (length_bind_const _ _ (fact (S i) ^ k)).
  - by rewrite length_index_draws, Nat.pow_succ_r'.
  - intros js. by rewrite length_fmap.
Qed.

Lemma attempts_drawn_in_range participants random_source c k :
  attempts_drawn participants random_source c k
  ∈ draw_sequences (length participants - 1) k.
Proof.
  revert c. induction k as [|k IH]; intros c; [by apply list_elem_of_singleton|].
  change (draw_sequences (length participants - 1) (S k))
    with (js ← index_draws (length participants - 1);
          (λ jss, js :: jss) <$> draw_sequences (length participants - 1) k).
  apply list_elem_of_bind. eexists. split; [|apply drawn_in_range].
  simpl. apply list_elem_of_fmap. eexists. split; [done | apply IH].
Qed.

Lemma NoDup_draw_sequences i k : NoDup (draw_sequences i k).
Proof.
  induction k as [|k IH]; [apply NoDup_singleton|].
  apply NoDup_bind_cons; [apply NoDup_index_draws | done].
Qed.

Lemma attempts_drawn_ext participants src1 src2 c k :
  (∀ x, c ≤ x → src1 x = src2 x) →
  attempts_drawn participants src1 c k = attempts_drawn participants src2 c k.
Proof.
  revert c. induction k as [|k IH]; intros c Hext; [done|]. simpl. f_equal.
  - apply drawn_ext. intros x Hx. apply Hext. lia.
  - apply IH. intros x Hx. apply Hext. lia.
Qed.

(** Every sequence of [draw_sequences] is drawn from some random source. *)
Lemma attempts_realised participants k jss c :
  jss ∈ draw_sequences (length participants - 1) k →
  ∃ src, attempts_drawn participants src c k = jss.
Proof.
  revert jss c. induction k as [|k IH]; intros jss c Hjss.
  - apply list_elem_of_singleton in Hjss as ->. by exists (λ _, Draw 0 0).
  - change (draw_sequences (length participants - 1) (S k))
      with (js ← index_draws (length participants - 1);
            (λ jss, js :: jss) <$> draw_sequences (length participants - 1) k)
      in Hjss.
    apply list_elem_of_bind in Hjss as (js & Hjss & Hjs).
    apply list_elem_of_fmap in Hjss as (jss' & -> & Hjss').
    destruct (drawn_realised _ js c Hjs) as [src1 Hsrc1].
    destruct (IH jss' (c + (length participants - 1)) Hjss') as [src2 Hsrc2].
    exists (λ x, if decide (x < c + (length participants - 1))
                 then src1 x else src2 x).
    simpl. f_equal.
    + rewrite <- Hsrc1. apply drawn_ext. intros x Hx. by rewrite decide_True by lia.
    + rewrite <- Hsrc2. apply attempts_drawn_ext. intros x Hx.
      by rewrite decide_False by lia.
Qed.

Lemma fact_pred_succ n : fact (S (n - 1)) = fact n.
Proof. destruct n as [|n]; [done|]. by replace (S n - 1) with n by lia. Qed.

Lemma group_strict_eq_refl g : group_strict_eq g g = true.
Proof. destruct g; [apply String.eqb_refl | done]. Qed.

Lemma drawn_always r c c' i : drawn (always r) c i = drawn (always r) c' i.
Proof.
  revert c c'. induction i as [|i IH]; intros c c'; [done|]. simpl.
  f_equal. apply IH.
Qed.

(** A random source that returns the same number at every call draws the
    same candidate at every attempt. *)
Lemma first_accepted_always args participants r c fuel :
  zero_violations (groups_on args) participants
    (candidate participants (always r) 0) = false →
  first_accepted args participants (always r) c fuel = None.
Proof.
  intros Hrej. revert c. induction fuel as [|fuel IH]; intros c; [done|].
  simpl. unfold candidate at 1. rewrite (drawn_always r c 0).
  fold (candidate participants (always r) 0). by rewrite Hrej.
Qed.

(** C2 as stated fails: termination does not hold for every sequence of
    random draws.  Group exclusion is on and a valid derangement exists (the
    two participants swapped), but when [Math.random] returns 1/2 at every
    call every shuffle is the identity, every candidate is given up at the
    first self-match, and [createAssignments] is still looping after any
    number of attempts. *)
Lemma retry_loop_can_run_forever :
  let args := ["--groups"%string] in
  let participants :=
    [Participant 1 "Ann" "ann@example.com" (Some "north");
     Participant 2 "Ben" "ben@example.com" (Some "south")]%string in
  groups_on args = true
  ∧ (∃ receivers, receivers ≡ₚ participants ∧
                  zero_violations true participants receivers = true)
  ∧ ∀ fuel,
      createAssignments args participants (always (Draw 1 0)) fuel start = Loops.
Proof.
  intros args participants. split; [reflexivity|]. split.
  - exists (rev participants). split; [apply perm_swap | reflexivity].
  - intros fuel.
    destruct (createAssignments_run args participants (always (Draw 1 0)) fuel
                start) as [lines ->].
    by rewrite first_accepted_always.
Qed.

(** C2 (amended).  Group exclusion is on and some ordering of the
    participants passes both checks.  A group label counts as set when it
    is truthy, which is the test the code applies.  Then the matcher
    terminates with probability 1 over the random draws, and what it
    returns keeps the groups apart:
    - every assignment returned in which giver and receiver both have a
      label set has different labels;
    - a run either returns or is still looping, it never throws; it is
      still looping after [fuel] attempts exactly when the index draws of
      every one of these attempts were rejected, and it returns as soon as
      an attempt draws an accepted vector;
    - at least one of the N! equally likely vectors of index draws of an
      attempt is accepted; the draws of k attempts are the (N!)^k sequences
      of [draw_sequences], each listed once and each drawn from some random
      source, and at most (N!-1)^k of them leave the loop running: the loop
      is still running after k attempts with probability at most
      (1 - 1/N!)^k. *)
Theorem group_exclusion_terminates args participants :
  groups_on args = true →
  (∃ receivers, receivers ≡ₚ participants ∧
                zero_violations true participants receivers = true) →
  let N := length participants in
  (∀ random_source fuel w out w',
     createAssignments args participants random_source fuel w = Returns out w' →
     Forall (λ a, truthy (group (giver a)) = true →
                  truthy (group (receiver a)) = true →
                  group (giver a) ≠ group (receiver a)) out)
  ∧ (∀ random_source fuel w,
       let run := createAssignments args participants random_source fuel w in
       let draws := attempts_drawn participants random_source (rand_calls w) fuel in
       draws ∈ draw_sequences (N - 1) fuel
       ∧ (run = Loops ↔ forallb (rejected args participants) draws = true)
       ∧ (forallb (rejected args participants) draws = false →
          ∃ out w', run = Returns out w'))
  ∧ (∃ js, js ∈ index_draws (N - 1) ∧ rejected args participants js = false)
  ∧ (∀ k,
       NoDup (draw_sequences (N - 1) k)
       ∧ (∀ jss c, jss ∈ draw_sequences (N - 1) k →
            ∃ random_source, attempts_drawn participants random_source c k = jss)
       ∧ length (draw_sequences (N - 1) k) = fact N ^ k
       ∧ length (filter (λ jss, forallb (rejected args participants) jss = true)
                        (draw_sequences (N - 1) k))
         ≤ (fact N - 1) ^ k).
Proof.
  intros Hg (receivers & Hperm & Hvalid) N.
  assert (Hsome : ∃ js, js ∈ index_draws (N - 1)
                        ∧ rejected args participants js = false).
  { destruct (shuffle_with_reaches_any participants receivers Hperm)
      as (js & Hjs & Hsh).
    exists js. split; [done|]. unfold rejected. by rewrite Hsh, Hg, Hvalid. }
  split; [|split; [|split; [done|]]].
  - intros src fuel w out w' Hrun.
    destruct (createAssignments_run args participants src fuel w) as [lines Hc].
    rewrite Hrun in Hc.
    destruct (first_accepted _ _ _ _ fuel) as [[rs c]|] eqn:Hf; [|done].
    injection Hc as -> ->.
    apply first_accepted_Some in Hf as (_ & Hz & _).
    eapply Forall_impl; [by apply zero_violations_Forall|].
    intros a Ha Hgiver Hreceiver Heq. rewrite Hg in Ha.
    apply orb_false_iff in Ha as [_ Ha]. simpl in Ha.
    unfold group_conflict in Ha.
    by rewrite Hgiver, Hreceiver, Heq, group_strict_eq_refl in Ha.
  - intros src fuel w run draws.
    split; [apply attempts_drawn_in_range|].
    destruct (createAssignments_run args participants src fuel w) as [lines Hc].
    pose proof (first_accepted_None args participants src (rand_calls w) fuel)
      as Hnone.
    fold draws in Hnone. fold run in Hc.
    destruct (first_accepted _ _ _ _ fuel) as [[rs c]|].
    + split.
      * rewrite Hc. split; [done|]. intros Hd. by apply Hnone in Hd.
      * intros _. by eexists _, _.
    + split.
      * split; [intros _; by apply Hnone | done].
      * intros Hd. destruct Hnone as [Hnone _]. rewrite Hnone in Hd; done.
  - intros k. split; [apply NoDup_draw_sequences|].
    split; [intros jss c Hjss; by apply attempts_realised|].
    rewrite length_draw_sequences, length_filter_sequences.
    rewrite (fact_pred_succ N). split; [done|].
    apply Nat.pow_le_mono_l.
    destruct Hsome as (js & Hjs & Hacc).
    assert (Hlt : length (filter (λ js, rejected args participants js = true)
                            (index_draws (N - 1)))
                  < length (index_draws (N - 1))).
    { apply (length_filter_lt _ _ js); [done|]. by rewrite Hacc. }
    rewrite length_index_draws, (fact_pred_succ N) in Hlt. lia.
Qed.

Lemma group_exclusion_terminates_witness :
  let args := ["--groups"%string] in
  let participants :=
    [Participant 1 "Ann" "ann@example.com" (Some "north");
     Participant 2 "Ben" "ben@example.com" (Some "south")]%string in
  (∀ random_source fuel w out w',
     createAssignments args participants random_source fuel w = Returns out w' →
     Forall (λ a, truthy (group (giver a)) = true →
                  truthy (group (receiver a)) = true →
                  group (giver a) ≠ group (receiver a)) out)
  ∧ (∀ random_source fuel w,
       let run := createAssignments args participants random_source fuel w in
       let draws := attempts_drawn participants random_source (rand_calls w) fuel in
       draws ∈ draw_sequences 1 fuel
       ∧ (run = Loops ↔ forallb (rejected args participants) draws = true)
       ∧ (forallb (rejected args participants) draws = false →
          ∃ out w', run = Returns out w'))
  ∧ (∃ js, js ∈ index_draws 1 ∧ rejected args participants js = false)
  ∧ (∀ k,
       NoDup (draw_sequences 1 k)
       ∧ (∀ jss c, jss ∈ draw_sequences 1 k →
            ∃ random_source, attempts_drawn participants random_source c k = jss)
       ∧ length (draw_sequences 1 k) = 2 ^ k
       ∧ length (filter (λ jss, forallb (rejected args participants) jss = true)
                        (draw_sequences 1 k))
         ≤ 1 ^ k).
Proof.
  intros args participants.
  apply (group_exclusion_terminates args participants).
  - reflexivity.
  - exists (rev participants). split; [apply perm_swap | reflexivity].
Defined.

(** * Further properties of the script *)

(** ** shuffle *)

(** X1.  [shuffle] returns a rearrangement of the array it is given: the
    same elements with the same multiplicities, hence the same length.  It
    calls [Math.random] exactly [length - 1] times (not at all for an empty
    or one-element array), prints nothing, and neither throws nor loops. *)
Theorem shuffle_permutes {A} random_source (array : list A) w :
  ∃ out,
    shuffle random_source array w
    = Returns out (World (rand_calls w + (length array - 1)) (effects w))
    ∧ out ≡ₚ array
    ∧ length out = length array
    ∧ (length array ≤ 1 → out = array).
Proof.
  eexists. split; [apply shuffle_run|]. split; [apply shuffle_with_Permutation|].
  split; [apply shuffle_with_length|].
  intros Hlen. by replace (length array - 1) with 0 by lia.
Qed.

(** ** createAssignments *)

Section MatcherRuns.
Context (args : list string) (participants : list participant).
Context (random_source : nat → unit_interval).

Local Abbreviation N := (length participants).
Local Abbreviation candidate_at :=
  (λ c k, candidate participants random_source (c + k * (N - 1))).

(** The retry loop counts its iterations. *)
Lemma retry_counted fuel : ∀ attempts w receivers attempts' w',
  retry args participants random_source fuel attempts participants w
  = Returns (receivers, attempts') w' →
  ∃ k, k < fuel
    ∧ attempts' = attempts + (k + 1)
    ∧ rand_calls w' = rand_calls w + (k + 1) * (N - 1)
    ∧ receivers = candidate_at (rand_calls w) k.
Proof.
  induction fuel as [|fuel IH]; intros attempts w receivers attempts' w'; [done|].
  simpl. unfold bind at 1. unfold console_log at 1.
  unfold bind at 1. rewrite shuffle_run. simpl rand_calls.
  fold (candidate participants random_source (rand_calls w)).
  unfold bind at 1.
  edestruct (check_from_run args participants 0
               (candidate participants random_source (rand_calls w)))
    as [lines ->]; [by unfold candidate; rewrite shuffle_with_length|].
  rewrite drop_0.
  destruct (zero_violations _ _ _); simpl.
  - intros [= <- <- <-]. exists 0. simpl.
    repeat split; [lia | lia | lia | f_equal; lia].
  - intros (k & Hk & -> & -> & ->)%IH. exists (S k). simpl.
    repeat split; [lia | lia | lia | f_equal; lia].
Qed.
End MatcherRuns.

(** X2.  [createAssignments] never throws and never ends the process: a run
    either returns or is still in the retry loop.  When it returns it has
    only written lines with [console.log]: no mail is sent, no transport is
    created and nothing goes to [console.error].  The read of
    [receivers[i]] in the checking loop is never out of range. *)
Theorem createAssignments_only_logs args participants random_source fuel w :
  createAssignments args participants random_source fuel w = Loops
  ∨ ∃ out lines c,
      createAssignments args participants random_source fuel w
      = Returns out (World c (effects w ++ (ConsoleLog <$> lines)))
      ∧ sent (effects w ++ (ConsoleLog <$> lines)) = sent (effects w).
Proof.
  destruct (createAssignments_run args participants random_source fuel w)
    as [lines ->].
  destruct (first_accepted _ _ _ _ fuel) as [[rs c]|]; [|by left].
  right. exists (pair_up participants rs), lines, c. split; [done|].
  by rewrite sent_app, sent_logs, app_nil_r.
Qed.

(** X3.  When [createAssignments] returns, the last line it prints reports
    the number of shuffles it made: if the candidate of attempt [k+1] was
    the one returned, the line says [k+1] attempt(s), and exactly
    [(k+1) * (N-1)] random numbers were drawn, [N-1] per attempt whether or
    not the attempt was given up early. *)
Theorem createAssignments_reports_attempts args participants random_source
    fuel w out w' :
  createAssignments args participants random_source fuel w = Returns out w' →
  ∃ k, k < fuel
    ∧ out = pair_up participants
              (candidate participants random_source
                 (rand_calls w + k * (length participants - 1)))
    ∧ rand_calls w' = rand_calls w + (k + 1) * (length participants - 1)
    ∧ last (effects w')
      = Some (ConsoleLog ("Assignments created successfully after "
                          +:+ pretty (k + 1) +:+ " attempt(s).")).
Proof.
  unfold createAssignments, bind. unfold console_log at 1.
  destruct (retry _ _ _ fuel 0 _ _) as [[rs att] w1| | |] eqn:Hretry; try done.
  apply retry_counted in Hretry as (k & Hk & -> & Hc & ->).
  unfold console_log, ret. intros [= <- <-]. exists k. simpl.
  repeat split; [done | done | apply last_snoc].
Qed.

Lemma createAssignments_reports_attempts_witness :
  let participants := [alice; bob; carol] in
  let out := [Assignment alice bob; Assignment bob carol; Assignment carol alice] in
  let w' :=
    World 2 [ConsoleLog "Creating assignments...";
             ConsoleLog "Attempt 1: Shuffling receivers...";
             ConsoleLog "Assignments created successfully after 1 attempt(s)."] in
  ∃ k, k < 1
    ∧ out = pair_up participants
              (candidate participants (always (Draw 0 0))
                 (rand_calls start + k * (length participants - 1)))
    ∧ rand_calls w' = rand_calls start + (k + 1) * (length participants - 1)
    ∧ last (effects w')
      = Some (ConsoleLog ("Assignments created successfully after "
                          +:+ pretty (k + 1) +:+ " attempt(s).")).
Proof.
  intros participants out w'.
  apply (createAssignments_reports_attempts [] participants
           (always (Draw 0 0)) 1 start out w').
  vm_compute. reflexivity.
Defined.

(** X4.  The self-match check compares unique ids, not records.  When every
    participant carries the same id (in particular when there is exactly
    one participant) every candidate pairs the first giver with a receiver
    of the same id, so [createAssignments] never returns, with or without
    group exclusion and whatever the random draws. *)
Theorem createAssignments_same_uid_loops args participants :
  participants ≠ [] →
  (∀ p q, p ∈ participants → q ∈ participants → uid p = uid q) →
  ∀ random_source fuel w,
    createAssignments args participants random_source fuel w = Loops.
Proof.
  intros Hne Hsame src fuel w.
  destruct (createAssignments_run args participants src fuel w) as [lines ->].
  rewrite first_accepted_unsatisfiable; [done|].
  intros receivers Hperm.
  destruct participants as [|g gs]; [done|].
  destruct receivers as [|r rs].
  { by apply Permutation_nil_cons in Hperm. }
  rewrite zero_violations_cons. unfold violation, self_match.
  assert (Hr : r ∈ g :: gs) by (rewrite <- Hperm; left).
  rewrite (Hsame g r) by (done || left). by rewrite Nat.eqb_refl.
Qed.

Lemma createAssignments_same_uid_loops_witness :
  createAssignments [] [alice] (always (Draw 0 0)) 20 start = Loops.
Proof.
  apply createAssignments_same_uid_loops.
  - discriminate.
  - intros p q ->%list_elem_of_singleton ->%list_elem_of_singleton. reflexivity.
Defined.

(** X5.  On an empty participant list [createAssignments] returns the empty
    list of assignments after a single attempt and without drawing a random
    number; the check [participants.length < 2] in [main] is what keeps an
    empty list away from it. *)
Theorem createAssignments_empty args random_source fuel w :
  createAssignments args [] random_source (S fuel) w
  = Returns [] (World (rand_calls w)
                  (effects w ++
                   [ConsoleLog "Creating assignments...";
                    ConsoleLog "Attempt 1: Shuffling receivers...";
                    ConsoleLog "Assignments created successfully after 1 attempt(s)."]))
  ∧ main args [] None None random_source (λ _ _, None) (S fuel) w
    = Returns tt (emit [ConsoleError too_few_participants] w).
Proof.
  split; [|done].
  unfold createAssignments, bind, console_log, ret, emit; simpl.
  unfold bind, console_log, shuffle, ret, emit; simpl.
  by rewrite <- !(assoc_L (++)).
Qed.

(** X6.  With three participants every returned list of receivers is one of
    the two cyclic shifts of the input: the second, third and first
    participant, or the third, first and second. *)
Theorem three_participants_cycle args a b c random_source fuel w out w' :
  createAssignments args [a; b; c] random_source fuel w = Returns out w' →
  receiver <$> out = [b; c; a] ∨ receiver <$> out = [c; a; b].
Proof.
  intros Hrun.
  destruct (createAssignments_run args [a; b; c] random_source fuel w)
    as [lines Hc].
  rewrite Hrun in Hc.
  destruct (first_accepted _ _ _ _ fuel) as [[rs n]|] eqn:Hf; [|done].
  assert (Hout : out = pair_up [a; b; c] rs) by congruence.
  clear Hc Hrun. rewrite Hout. clear Hout.
  apply first_accepted_Some in Hf as (Hperm & Hz & _).
  assert (Hlen : length rs = 3) by by rewrite Hperm.
  rewrite pair_up_receivers by (simpl; lia).
  symmetry in Hperm. apply permutations_Permutation in Hperm.
  unfold zero_violations, violation, self_match in Hz.
  cbv [permutations interleave mbind list_bind fmap list_fmap foldr app
       mjoin list_join] in Hperm.
  repeat (apply elem_of_cons in Hperm as [->|Hperm]);
    try (by apply elem_of_nil in Hperm);
    try (by left); try (by right);
    exfalso; simpl in Hz; rewrite ?Nat.eqb_refl in Hz; simpl in Hz;
    rewrite ?andb_false_r in Hz; done.
Qed.

Lemma three_participants_cycle_witness :
  receiver <$> [Assignment alice bob; Assignment bob carol; Assignment carol alice]
  = [bob; carol; alice]
  ∨ receiver <$> [Assignment alice bob; Assignment bob carol; Assignment carol alice]
    = [carol; alice; bob].
Proof.
  eapply (three_participants_cycle [] alice bob carol (always (Draw 0 0)) 1 start).
  vm_compute. reflexivity.
Defined.

#[global] Instance participant_eq_dec : EqDecision participant.
Proof. solve_decision. Defined.

(** X7.  The draw is fair among the valid matchings.  For participants
    that are pairwise different, every ordering of them that passes the
    checks is produced by exactly one of the N! equally likely vectors of
    index draws of an attempt, and when the first shuffle of a run produces
    it, [createAssignments] returns it at once, paired with the givers in
    input order. *)
Theorem valid_matching_one_draw args participants target :
  NoDup participants →
  target ≡ₚ participants →
  zero_violations (groups_on args) participants target = true →
  let i := length participants - 1 in
  length (filter (λ js, shuffle_with i js participants = target) (index_draws i))
  = 1
  ∧ ∀ random_source fuel w,
      candidate participants random_source (rand_calls w) = target →
      ∃ lines,
        createAssignments args participants random_source (S fuel) w
        = Returns (pair_up participants target)
                  (World (rand_calls w + i) (effects w ++ (ConsoleLog <$> lines))).
Proof.
  intros Hnd Hperm Hvalid i. split.
  - destruct (shuffle_with_reaches i participants target) as (js & Hjs & Hsh);
      [done | done | done | |].
    { intros k Hk. assert (length target = length participants) by by rewrite Hperm.
      subst i.
      by rewrite (lookup_ge_None_2 target), (lookup_ge_None_2 participants) by lia. }
    apply (length_filter_unique _ _ js); [apply NoDup_index_draws | done | done |].
    intros js' Hjs' Hsh'. apply (shuffle_with_inj i participants); try done.
    congruence.
  - intros src fuel w Hcand.
    destruct (createAssignments_run args participants src (S fuel) w)
      as [lines Hrun].
    exists lines. rewrite Hrun. simpl. by rewrite Hcand, Hvalid.
Qed.

Lemma valid_matching_one_draw_witness :
  length (filter (λ js, shuffle_with 2 js [alice; bob; carol] = [bob; carol; alice])
                 (index_draws 2)) = 1
  ∧ ∀ random_source fuel w,
      candidate [alice; bob; carol] random_source (rand_calls w)
      = [bob; carol; alice] →
      ∃ lines,
        createAssignments [] [alice; bob; carol] random_source (S fuel) w
        = Returns (pair_up [alice; bob; carol] [bob; carol; alice])
                  (World (rand_calls w + 2) (effects w ++ (ConsoleLog <$> lines))).
Proof.
  apply (valid_matching_one_draw [] [alice; bob; carol] [bob; carol; alice]).
  - apply (bool_decide_unpack _). vm_compute. exact I.
  - symmetry. rewrite (Permutation_cons_append [bob; carol] alice). reflexivity.
  - reflexivity.
Defined.

(** ** sendEmails, main and the top level *)

Section WholeRun.
Context (args : list string) (participants : list participant).
Context (YOUR_EMAIL YOUR_APP_PASSWORD : option string).
Context (random_source : nat → unit_interval).
Context (sendMail_result : nat → mailOptions → option thrown).

Lemma sendEmails_run assignments w :
  sendEmails args YOUR_EMAIL YOUR_APP_PASSWORD sendMail_result assignments w
  = let events :=
      CreateTransport YOUR_EMAIL YOUR_APP_PASSWORD
      :: ConsoleLog sending_header
      :: notifications args YOUR_EMAIL sendMail_result
           (length (sent (effects w))) assignments in
    match notification_error args YOUR_EMAIL sendMail_result
            (length (sent (effects w))) assignments with
    | None => Returns tt (emit events w)
    | Some e => Throws e (emit events w)
    end.
Proof.
  unfold sendEmails, bind, createTransport, console_log, notifications,
    notification_error.
  destruct (DRY_RUN args) eqn:Hdry.
  - by rewrite for_of_notify_dry, !emit_emit.
  - rewrite for_of_notify_live, !emit_emit by done. cbv zeta. simpl effects.
    rewrite !sent_app. simpl. rewrite !app_nil_r.
    destruct (delivery_error _ _ _ _); by rewrite emit_emit.
Qed.

Lemma sent_banner dry : sent (banner dry) = [].
Proof. by destruct dry. Qed.

(** A run of [main] that passes the check on the number of participants. *)
Lemma main_run fuel w :
  2 ≤ length participants →
  ∃ lines,
    main args participants YOUR_EMAIL YOUR_APP_PASSWORD random_source
      sendMail_result fuel w
    = match first_accepted args participants random_source (rand_calls w) fuel with
      | Some (receivers, c) =>
          let out := pair_up participants receivers in
          let k := length (sent (effects w)) in
          let printed :=
            effects w ++ banner (DRY_RUN args) ++ (ConsoleLog <$> lines)
            ++ CreateTransport YOUR_EMAIL YOUR_APP_PASSWORD
               :: ConsoleLog sending_header
               :: notifications args YOUR_EMAIL sendMail_result k out in
          match notification_error args YOUR_EMAIL sendMail_result k out with
          | None => Returns tt (World c (printed ++ [ConsoleLog (nl +:+ "All done!")]))
          | Some e => Throws e (World c printed)
          end
      | None => Loops
      end.
Proof.
  intros Hn. unfold main.
  assert (Hlt : (length participants <? 2) = false) by (apply Nat.ltb_ge; lia).
  rewrite Hlt. unfold bind at 1.
  assert (Hbanner :
    when (DRY_RUN args)
      (console_log "******************************" ;;;
       console_log "* RUNNING IN DRY MODE    *" ;;;
       console_log "* No emails will be sent.   *" ;;;
       console_log ("******************************" +:+ nl)) w
    = Returns tt (emit (banner (DRY_RUN args)) w)).
  { destruct (DRY_RUN args); simpl.
    - unfold bind, console_log. by rewrite !emit_emit.
    - unfold ret. by rewrite emit_nil. }
  rewrite Hbanner. clear Hbanner. unfold bind at 1.
  destruct (createAssignments_run args participants random_source fuel
              (emit (banner (DRY_RUN args)) w)) as [lines ->].
  exists lines. simpl rand_calls.
  destruct (first_accepted _ _ _ _ fuel) as [[rs c]|]; [|done].
  unfold bind. rewrite sendEmails_run. cbv zeta. simpl effects.
  rewrite !sent_app, sent_banner, sent_logs, !app_nil_r.
  destruct (notification_error _ _ _ _ _).
  - unfold emit. simpl. by rewrite <- !(assoc_L (++)).
  - unfold console_log. rewrite emit_emit. unfold emit. simpl.
    by rewrite <- !(assoc_L (++)).
Qed.

Lemma sent_notifications k assignments :
  notification_error args YOUR_EMAIL sendMail_result k assignments = None →
  sent (notifications args YOUR_EMAIL sendMail_result k assignments)
  = if DRY_RUN args then [] else mail_for YOUR_EMAIL <$> assignments.
Proof.
  unfold notification_error, notifications. destruct (DRY_RUN args).
  - intros _. apply sent_dry_run_lines.
  - apply sent_delivery.
Qed.
End WholeRun.


(** X10.  In live mode a run of [main] that returns has handed the
    transport exactly one mail per participant, addressed to the
    participants' own addresses in input order; the mails are those of a
    list of assignments whose givers are the participants in input order and
    whose receivers are a permutation of the participants. *)
Theorem live_run_mails_everyone args participants YOUR_EMAIL YOUR_APP_PASSWORD
    random_source sendMail_result fuel w w' :
  DRY_RUN args = false →
  2 ≤ length participants →
  main args participants YOUR_EMAIL YOUR_APP_PASSWORD random_source
    sendMail_result fuel w = Returns tt w' →
  ∃ out,
    giver <$> out = participants
    ∧ receiver <$> out ≡ₚ participants
    ∧ sent (effects w') = sent (effects w) ++ (mail_for YOUR_EMAIL <$> out)
    ∧ to <$> (mail_for YOUR_EMAIL <$> out) = email <$> participants.
Proof.
  intros Hlive Hn Hrun.
  destruct (main_run args participants YOUR_EMAIL YOUR_APP_PASSWORD
              random_source sendMail_result fuel w Hn) as [lines Hmain].
  rewrite Hrun in Hmain.
  destruct (first_accepted _ _ _ _ fuel) as [[rs c]|] eqn:Hf; [|done].
  apply first_accepted_Some in Hf as (Hperm & _ & _).
  assert (Hlen : length rs = length participants) by by rewrite Hperm.
  assert (Hgivers : giver <$> pair_up participants rs = participants)
    by (apply pair_up_givers; lia).
  exists (pair_up participants rs). split; [done|]. split.
  { rewrite pair_up_receivers by lia. done. }
  split.
  - cbv zeta in Hmain.
    destruct (notification_error _ _ _ _ _) eqn:Herr; [done|].
    injection Hmain as ->. simpl effects.
    rewrite !sent_app, sent_banner, sent_logs. simpl.
    rewrite sent_notifications, Hlive by done.
    by rewrite !app_nil_r.
  - rewrite <- Hgivers at 2. rewrite <- !list_fmap_compose. done.
Qed.

Lemma live_run_mails_everyone_witness :
  ∃ out,
    giver <$> out = [alice; bob]
    ∧ receiver <$> out ≡ₚ [alice; bob]
    ∧ to <$> (mail_for None <$> out) = email <$> [alice; bob].
Proof.
  edestruct (live_run_mails_everyone [] [alice; bob] None None
               (always (Draw 0 0))
               (λ _ _, Some (Thrown (Some "mailbox full"%string))) 1 start)
    as (out & Hg & Hr & _ & Hto).
  - reflexivity.
  - simpl. lia.
  - vm_compute. reflexivity.
  - exists out. split; [exact Hg|]. split; [exact Hr | exact Hto].
Defined.

(** X11.  Whenever [main] gets past the check on the number of participants
    and returns, the last line it prints is "All done!", in dry-run and in
    live mode alike and also when every call of the transport failed. *)
Theorem main_ends_all_done args participants YOUR_EMAIL YOUR_APP_PASSWORD
    random_source sendMail_result fuel w w' :
  2 ≤ length participants →
  main args participants YOUR_EMAIL YOUR_APP_PASSWORD random_source
    sendMail_result fuel w = Returns tt w' →
  last (effects w') = Some (ConsoleLog (nl +:+ "All done!")).
Proof.
  intros Hn Hrun.
  destruct (main_run args participants YOUR_EMAIL YOUR_APP_PASSWORD
              random_source sendMail_result fuel w Hn) as [lines Hmain].
  rewrite Hrun in Hmain.
  destruct (first_accepted _ _ _ _ fuel) as [[rs c]|]; [|done].
  cbv zeta in Hmain. destruct (notification_error _ _ _ _ _); [done|].
  injection Hmain as ->. simpl effects. apply last_snoc.
Qed.

Lemma main_ends_all_done_witness :
  ∃ w',
    main [] [alice; bob] None None (always (Draw 0 0))
      (λ _ _, Some (Thrown (Some "mailbox full"%string))) 1 start = Returns tt w'
    ∧ last (effects w') = Some (ConsoleLog (nl +:+ "All done!")).
Proof.
  eexists. split.
  - vm_compute. reflexivity.
  - eapply (main_ends_all_done [] [alice; bob] None None (always (Draw 0 0))
              (λ _ _, Some (Thrown (Some "mailbox full"%string))) 1 start).
    + simpl. lia.
    + vm_compute. reflexivity.
Defined.

(** X12.  The flags are read by membership only: two argument lists with the
    same members, in whatever order and however often repeated, switch
    dry-run mode, group exclusion and the help text the same way, and an
    argument that is none of the six recognised spellings changes nothing. *)
Theorem flags_by_membership args args' :
  (∀ x, x ∈ args ↔ x ∈ args') →
  DRY_RUN args = DRY_RUN args'
  ∧ groups_on args = groups_on args'
  ∧ includes args "--help" || includes args "-h"
    = includes args' "--help" || includes args' "-h"
  ∧ ∀ x, x ∉ ["--dry-run"; "-d"; "--groups"; "-g"; "--help"; "-h"]%string →
      DRY_RUN (x :: args) = DRY_RUN args
      ∧ groups_on (x :: args) = groups_on args
      ∧ includes (x :: args) "--help" || includes (x :: args) "-h"
        = includes args "--help" || includes args "-h".
Proof.
  intros Hsame.
  assert (Hinc : ∀ flag, includes args flag = includes args' flag).
  { intros flag. apply eq_true_iff_eq. rewrite !includes_elem_of. apply Hsame. }
  unfold DRY_RUN, groups_on. split; [by rewrite !Hinc|].
  split; [by rewrite !Hinc|]. split; [by rewrite !Hinc|].
  intros x Hx.
  assert (Hskip : ∀ flag,
            flag ∈ ["--dry-run"; "-d"; "--groups"; "-g"; "--help"; "-h"]%string →
            includes (x :: args) flag = includes args flag).
  { intros flag Hflag. unfold includes. simpl.
    destruct (String.eqb_spec flag x) as [->|]; [by destruct Hx | done]. }
  rewrite !Hskip; [done | repeat constructor ..].
Qed.

Lemma flags_by_membership_witness :
  DRY_RUN ["-d"; "-g"]%string = DRY_RUN ["-g"; "-d"; "-d"]%string
  ∧ groups_on ["-d"; "-g"]%string = groups_on ["-g"; "-d"; "-d"]%string.
Proof.
  destruct (flags_by_membership ["-d"; "-g"]%string ["-g"; "-d"; "-d"]%string)
    as (Hd & Hg & _).
  - intros x. rewrite !elem_of_cons, !elem_of_nil. tauto.
  - split; [exact Hd | exact Hg].
Defined.


